(** * XC: endpoint aggregation, probing, ranking and labelling

    A shallow embedding of [src/main.py].  Python values are modelled as
    follows.

    - [str] is a sequence of Unicode code points ([list N]).
    - [bytes] is a sequence of octets ([list N], each below 256).
    - [int] is [Z]; the floats returned by [time.time()] are binary64
      values ([PrimFloat.float]).
    - A raised exception is the [Raise] outcome of the [res] monad; a
      [try ... except] is a match on that outcome, and an [except] clause
      catches the instances of its classes ([isinstance]).
    - Everything that the script obtains from its environment (HTTP bodies,
      TCP connects and clock readings, name resolution, the GeoIP database,
      random draws, the order in which futures are handed back, set
      iteration order, the file system) is a field of the [world] record.
    - What [main] does to its environment (directories created, files
      written, lines printed) is collected by the [io] monad, which keeps
      the effects that came before an exception. *)

From Stdlib Require Import ZArith NArith QArith Qabs Lia Floats DecimalString.
From Stdlib Require Import DecimalNat DecimalFacts.
From Stdlib Require Import Sorting.Sorted.
From stdpp Require Import base option list sorting gmap strings.

Local Open Scope N_scope.

(** ** Strings *)

Definition char := N.
Definition str := list char.
Definition bytes := list N.

(** A literal of the source, given by its ASCII text. *)
Definition lit (s : string) : str :=
  map Ascii.N_of_ascii (String.list_ascii_of_string s).

Definition chr_hash : char := 35.
Definition chr_colon : char := 58.
Definition chr_at : char := 64.
Definition chr_question : char := 63.
Definition chr_lbracket : char := 91.
Definition chr_rbracket : char := 93.
Definition chr_newline : char := 10.
Definition SEP : str := lit "://".

(** [s.startswith(p)] *)
Fixpoint startswith (p s : str) : bool :=
  match p, s with
  | [], _ => true
  | _ :: _, [] => false
  | a :: p', b :: s' => (a =? b) && startswith p' s'
  end.

(** [sub in s] *)
Fixpoint contains (sub s : str) : bool :=
  startswith sub s ||
  match s with
  | [] => false
  | _ :: s' => contains sub s'
  end.

(** [s.split(sep)] for a non-empty separator: the pieces between the
    non-overlapping occurrences of [sep], scanning from the left.  [skip]
    counts the characters of a separator occurrence still to be passed. *)
Fixpoint split_go (sep : str) (skip : nat) (s : str) : list str :=
  match s with
  | [] => [[]]
  | c :: s' =>
      match skip with
      | S k => split_go sep k s'
      | O =>
          if startswith sep s then [] :: split_go sep (length sep - 1) s'
          else match split_go sep 0 s' with
               | piece :: rest => (c :: piece) :: rest
               | [] => [[c]]
               end
      end
  end.

Definition split (sep s : str) : list str := split_go sep 0 s.

(** [s.rsplit(c, 1)]: at most one split, at the last occurrence of [c]. *)
Fixpoint rsplit1 (c : char) (s : str) : list str :=
  match s with
  | [] => [[]]
  | a :: s' =>
      match rsplit1 c s' with
      | [before; after] => [a :: before; after]
      | _ => if a =? c then [[]; s'] else [a :: s']
      end
  end.

Fixpoint lstrip (cs : list char) (s : str) : str :=
  match s with
  | [] => []
  | a :: s' => if existsb (N.eqb a) cs then lstrip cs s' else s
  end.

(** [s.strip(cs)] *)
Definition strip (cs : list char) (s : str) : str :=
  rev (lstrip cs (rev (lstrip cs s))).

(** [s.count(c)] for a single character *)
Fixpoint count (c : char) (s : str) : nat :=
  match s with
  | [] => 0
  | a :: s' => (if c =? a then 1 else 0) + count c s'
  end.

(** [sep.join(parts)] *)
Fixpoint join (sep : str) (parts : list str) : str :=
  match parts with
  | [] => []
  | [p] => p
  | p :: rest => p ++ sep ++ join sep rest
  end.

(** ** Exceptions *)

Inductive exn :=
  | IndexError | ValueError | OverflowError | OSError
  | UnicodeEncodeError | AddressNotFoundError | gaierror
  | FileNotFoundError.

Inductive res (A : Type) :=
  | Ok (a : A)
  | Raise (e : exn).
Arguments Ok {A} a.
Arguments Raise {A} e.

#[global] Instance res_ret : MRet res := fun A a => Ok a.
#[global] Instance res_bind : MBind res := fun A B f m =>
  match m with
  | Ok a => f a
  | Raise e => Raise e
  end.

#[global] Instance res_fmap : FMap res := fun A B f m =>
  match m with
  | Ok a => Ok (f a)
  | Raise e => Raise e
  end.

(** [l[i]] *)
Definition index {A} (l : list A) (i : nat) : res A :=
  match l !! i with
  | Some a => Ok a
  | None => Raise IndexError
  end.

Ltac res_simpl :=
  unfold mbind, res_bind, mret, res_ret, fmap, res_fmap in *; simpl in *.

#[global] Instance exn_eq_dec : EqDecision exn.
Proof. solve_decision. Defined.

(** The class an exception class derives from, among the classes above:
    [UnicodeEncodeError] is a [ValueError] (through [UnicodeError]),
    [socket.gaierror] and [FileNotFoundError] are [OSError]s. *)
Definition base_class (cls : exn) : option exn :=
  match cls with
  | UnicodeEncodeError => Some ValueError
  | gaierror | FileNotFoundError => Some OSError
  | _ => None
  end.

(** [isinstance(e, cls)]: what [except cls] catches. *)
Definition isinstance (e cls : exn) : bool :=
  bool_decide (e = cls) || bool_decide (base_class e = Some cls).

(** ** The interpreter *)

(** What the script takes from the Python interpreter and is not defined by
    the repository: the Unicode database and the integer-conversion limit. *)
Class Interp := {
  (** [Py_UNICODE_TODECIMAL]: the value of a decimal digit character. *)
  todecimal : char -> option N;
  (** [str.upper] *)
  str_upper : str -> str;
  (** [sys.get_int_max_str_digits()]; 0 means no limit. *)
  max_str_digits : nat;
  (** [bytes.decode('utf-8', errors='ignore')] *)
  decode_utf8_ignore : list N -> str;
}.

(** [Py_UNICODE_ISSPACE] *)
Definition isspace (c : char) : bool :=
  (9 <=? c) && (c <=? 13) || (28 <=? c) && (c <=? 32) ||
  (c =? 133) || (c =? 160) || (c =? 5760) ||
  (8192 <=? c) && (c <=? 8202) ||
  (c =? 8232) || (c =? 8233) || (c =? 8239) || (c =? 8287) || (c =? 12288).

(** [Py_ISSPACE], the whitespace of the C locale. *)
Definition isspace_c (c : char) : bool :=
  (9 <=? c) && (c <=? 13) || (c =? 32).

Definition is_ascii (s : str) : bool := forallb (fun c => c <? 128) s.

Section Int.
Context `{Interp}.

(** Non-ASCII digits and spaces are mapped to ASCII before parsing; the
    text is cut after the first character that is neither. *)
Fixpoint to_ascii_decimal (s : str) : str :=
  match s with
  | [] => []
  | c :: s' =>
      if c <? 127 then c :: to_ascii_decimal s'
      else if isspace c then 32 :: to_ascii_decimal s'
      else match todecimal c with
           | Some d => (48 + d) :: to_ascii_decimal s'
           | None => [63]
           end
  end.

Definition digit_value (c : char) : option Z :=
  if (48 <=? c) && (c <=? 57) then Some (Z.of_N (c - 48)) else None.

(** The digits of a decimal literal, single underscores allowed between
    them.  Returns the value, the number of digits and the unread rest. *)
Fixpoint scan_digits (prev : char) (acc : Z) (digits : nat) (s : str)
  : option (Z * nat * str) :=
  match s with
  | [] => if prev =? 95 then None else Some (acc, digits, [])
  | c :: s' =>
      if c =? 95 then
        if prev =? 95 then None else scan_digits c acc digits s'
      else
        match digit_value c with
        | Some d => scan_digits c (10 * acc + d)%Z (S digits) s'
        | None => if prev =? 95 then None else Some (acc, digits, s)
        end
  end.

Definition parse_long (s : str) : option Z :=
  let s := lstrip [9; 10; 11; 12; 13; 32] s in
  let '(neg, s) :=
    match s with
    | 43 :: s' => (false, s')
    | 45 :: s' => (true, s')
    | _ => (false, s)
    end in
  match s with
  | 95 :: _ => None
  | _ =>
      match scan_digits 0 0%Z 0%nat s with
      | Some (v, digits, rest) =>
          if (digits =? 0)%nat then None
          else if (640 <? digits)%nat && (0 <? max_str_digits)%nat
                  && (max_str_digits <? digits)%nat then None
          else if forallb isspace_c rest then Some (if neg then (- v)%Z else v)
          else None
      | None => None
      end
  end.

(** [int(s)] for a [str] argument *)
Definition py_int (s : str) : res Z :=
  let buffer := if is_ascii s then s else to_ascii_decimal s in
  match parse_long buffer with
  | Some v => Ok v
  | None => Raise ValueError
  end.
End Int.

(** [int(x)] for a float argument: truncation toward zero *)
Definition float_to_int (x : float) : res Z :=
  match Prim2SF x with
  | S754_zero _ => Ok 0%Z
  | S754_finite s m e =>
      let a := if (0 <=? e)%Z then Z.shiftl (Z.pos m) e
               else Z.shiftr (Z.pos m) (- e) in
      Ok (if s then (- a)%Z else a)
  | S754_infinity _ => Raise OverflowError
  | S754_nan => Raise ValueError
  end.

(** ** The environment *)

(** The answer of the GeoIP reader to [country(ip)]: the ISO code of the
    record ([None] when the record has none) or an exception. *)
Definition reader := str -> res (option str).

Record world := {
  (** [requests.get(url, timeout=30)] followed by [raise_for_status()]:
      the body text, or [None] for a [RequestException]. *)
  http_get : str -> option str;
  (** Position of an element in the iteration of a [set] of strings.  It
      depends on the hashes of this run and on the layout of the table,
      hence on the insertions that built the set (first argument, in
      order). *)
  set_position : list str -> str -> Z;
  (** Position of the future of a descriptor in the iteration of
      [as_completed]: the futures already finished when the iteration
      starts come first, in the order of a set, the others as they
      finish. *)
  yield_position : str -> Z;
  (** [socket.create_connection((host, port), timeout)] issued for a
      descriptor: [None] when it raises, else the readings of
      [time.time()] before the call and after the connect. *)
  connect : str -> str -> Z -> option (float * float);
  (** [socket.gethostbyname(host)] *)
  gethostbyname : str -> res str;
  (** The reader of [GeoLite2-Country.mmdb], when the file exists. *)
  geo_db : option reader;
  (** The exception of [geoip2.database.Reader(GEOIP_DB_PATH)] when the
      file exists and cannot be opened as a database. *)
  geo_db_error : option exn;
  (** The [k]-th number drawn by [random.choice]. *)
  random_index : nat -> nat;
  (** Whether a file can be opened for writing. *)
  writable : str -> bool;
  (** The exception of [os.makedirs(d, exist_ok=True)] for a non-empty
      path, if it raises. *)
  makedirs_error : str -> option exn;
}.

(** ** V2RayPingTester *)

Record probe := { config : str; ping : Z; host : str }.

Section Tester.
Context `{Interp}.

(** Lines 77-91 of [test_single]: host and port of a descriptor.
    [Ok None] is the early [return None]. *)
Definition parse_target (config : str) : res (option (str * Z)) :=
  if negb (contains SEP config) then mret None else
  uri_part ← index (split SEP config) 1;
  before_hash ← index (split [chr_hash] uri_part) 0;
  host_part ← index (split [chr_question] before_hash) 0;
  host_port_str ←
    (if contains [chr_at] host_part
     then index (split [chr_at] host_part) 1
     else mret host_part);
  if contains [chr_colon] host_port_str then
    h ← index (rsplit1 chr_colon host_port_str) 0;
    p ← index (rsplit1 chr_colon host_port_str) 1;
    port ← py_int p;
    mret (Some (strip [chr_lbracket; chr_rbracket] h, port))
  else mret (Some (host_port_str, 443%Z)).

Definition test_single_body (w : world) (config : str) : res (option probe) :=
  target ← parse_target config;
  match target with
  | None => mret None
  | Some (host, port) =>
      match connect w config host port with
      | None => Raise OSError
      | Some (start_time, now) =>
          ping_ms ← float_to_int ((now - start_time) * 1000)%float;
          mret (Some {| config := config; ping := ping_ms; host := host |})
      end
  end.

(** Both [except] clauses return [None]. *)
Definition test_single (w : world) (config : str) : option probe :=
  match test_single_body w config with
  | Ok r => r
  | Raise _ => None
  end.

(** The endpoint parser as [test_single] uses it: any exception raised
    while parsing is caught and the descriptor is skipped. *)
Definition parse (config : str) : option (str * Z) :=
  match parse_target config with
  | Ok r => r
  | Raise _ => None
  end.
End Tester.

(** An interpreter whose Unicode database is cut down to ASCII.  On ASCII
    text of ordinary length every interpreter computes what this one does;
    it serves to run the model on concrete inputs.  Its decoder drops
    every byte outside ASCII. *)
Definition ascii_upper (c : char) : char :=
  if (97 <=? c) && (c <=? 122) then c - 32 else c.

Definition ascii_interp : Interp :=
  {| todecimal := fun _ => None;
     str_upper := map ascii_upper;
     max_str_digits := 4300;
     decode_utf8_ignore := filter (λ b, b < 128) |}.

(** ** The stages of the endpoint parser *)

Section Parser.
Context `{Interp}.

(** Lines 78-79: the authority, without fragment and query. *)
Definition host_part_of (config : str) : res str :=
  uri_part ← index (split SEP config) 1;
  before_hash ← index (split [chr_hash] uri_part) 0;
  index (split [chr_question] before_hash) 0.

(** Lines 81-84: the authority without credentials. *)
Definition host_port_str_of (host_part : str) : res str :=
  if contains [chr_at] host_part
  then index (split [chr_at] host_part) 1
  else mret host_part.

(** Lines 86-91: host and port. *)
Definition host_and_port (host_port_str : str) : res (str * Z) :=
  if contains [chr_colon] host_port_str then
    h ← index (rsplit1 chr_colon host_port_str) 0;
    p ← index (rsplit1 chr_colon host_port_str) 1;
    port ← py_int p;
    mret (strip [chr_lbracket; chr_rbracket] h, port)
  else mret (host_port_str, 443%Z).
End Parser.

(** The segment after the last occurrence of [c], in the words of the
    specification. *)
Definition after_last (c : char) (s : str) : str :=
  default s (last (split [c] s)).

(** ** Sorting and the probe scheduler *)

Section Sorted.
Context {A : Type} (key : A → Z).

Fixpoint insert_by (x : A) (l : list A) : list A :=
  match l with
  | [] => [x]
  | y :: l' => if (key x <=? key y)%Z then x :: l else y :: insert_by x l'
  end.

(** [sorted(l, key=key)]: the stable ascending sort. *)
Definition sorted (l : list A) : list A := foldr insert_by [] l.

(** The order that [sorted] establishes. *)
Definition key_le (a b : A) : Prop := (key a ≤ key b)%Z.
End Sorted.

Section Run.
Context `{Interp}.

(** [as_completed]: the futures in the order in which the iteration hands
    them back, each named by its descriptor. *)
Definition as_completed (w : world) (configs : list str) : list str :=
  sorted (yield_position w) configs.

(** [V2RayPingTester.run]; the progress output is not modelled. *)
Definition run (w : world) (configs : list str) : list probe :=
  let reachable_configs := omap (test_single w) (as_completed w configs) in
  sorted ping reachable_configs.
End Run.

(** ** Text encodings *)

(** [c.encode('utf-8')] for one code point; surrogates cannot be encoded. *)
Definition utf8_char (c : char) : res bytes :=
  if c <? 0x80 then Ok [c]
  else if c <? 0x800 then
    Ok [N.lor 0xC0 (N.shiftr c 6); N.lor 0x80 (N.land c 0x3F)]
  else if (0xD800 <=? c) && (c <=? 0xDFFF) then Raise UnicodeEncodeError
  else if c <? 0x10000 then
    Ok [N.lor 0xE0 (N.shiftr c 12);
        N.lor 0x80 (N.land (N.shiftr c 6) 0x3F);
        N.lor 0x80 (N.land c 0x3F)]
  else if c <? 0x110000 then
    Ok [N.lor 0xF0 (N.shiftr c 18);
        N.lor 0x80 (N.land (N.shiftr c 12) 0x3F);
        N.lor 0x80 (N.land (N.shiftr c 6) 0x3F);
        N.lor 0x80 (N.land c 0x3F)]
  else Raise UnicodeEncodeError.

(** [s.encode()] *)
Fixpoint encode_utf8 (s : str) : res bytes :=
  match s with
  | [] => Ok []
  | c :: s' =>
      b ← utf8_char c;
      bs ← encode_utf8 s';
      mret (b ++ bs)
  end.

(** The bytes [urllib.parse.quote] leaves as they are: letters, digits,
    [_.-~] and the default [safe='/']. *)
Definition quote_safe (b : N) : bool :=
  (65 <=? b) && (b <=? 90) || (97 <=? b) && (b <=? 122) ||
  (48 <=? b) && (b <=? 57) ||
  (b =? 95) || (b =? 46) || (b =? 45) || (b =? 126) || (b =? 47).

Definition hex_digit (n : N) : char :=
  if n <? 10 then 48 + n else 55 + n.

Definition quote_byte (b : N) : str :=
  if quote_safe b then [b]
  else [37; hex_digit (N.shiftr b 4); hex_digit (N.land b 15)].

(** [urllib.parse.quote(s)] *)
Definition quote (s : str) : res str :=
  bs ← encode_utf8 s;
  mret (concat (map quote_byte bs)).

Definition decimal (n : nat) : str :=
  lit (NilZero.string_of_uint (Nat.to_uint n)).

(** [f"{i:03d}"] for [i >= 0] *)
Definition fmt_03d (i : nat) : str :=
  let d := decimal i in
  replicate (3 - length d) 48 ++ d.

(** ** Geo classification *)

Definition globe : str := [127760].
Definition Unknown : str * str := (lit "Unknown", globe).

Section Geo.
Context `{Interp}.

(** [chr(i)] *)
Definition chr (i : N) : res char :=
  if i <? 0x110000 then Ok i else Raise ValueError.

(** ["".join(chr(ord(c) + 127397) for c in country_code.upper())] *)
Definition regional_indicators (country_code : str) : res str :=
  mapM (λ c, chr (c + 127397)) (str_upper country_code).

Definition get_country_and_flag (ip_address : str) (geo_reader : option reader)
  : res (str * str) :=
  match ip_address, geo_reader with
  | _ :: _, Some country =>
      let body :=
        country_code ← country ip_address;
        match country_code with
        | Some ((_ :: _) as code) =>
            flag ← regional_indicators code;
            mret (code, flag)
        | _ => mret Unknown
        end in
      match body with
      | Raise e =>
          if isinstance e AddressNotFoundError || isinstance e ValueError
          then Ok Unknown else Raise e
      | outcome => outcome
      end
  | _, _ => Ok Unknown
  end.
End Geo.

(** ** Settings *)

(** [settings.json]; a key that may be missing is an [option]. *)
Record settings := {
  sources_files : list str;
  out_dir : option str;
  brands : option (list str);
  emojis : option (list str);
}.

Definition BRANDS_LIST (cfg : settings) : list str :=
  default [lit "V2XCore"] (brands cfg).
Definition EMOJIS_LIST (cfg : settings) : list str :=
  default [[0x26A1; 0xFE0F]] (emojis cfg).
Definition base_dir (cfg : settings) : str :=
  default (lit "subscriptions") (out_dir cfg).

(** ** Ranking and labelling *)

(** A [defaultdict(list)]: keys in order of first insertion. *)
Definition groups := list (str * list str).

(** [d[key].append(v)] *)
Fixpoint group_append (key v : str) (d : groups) : groups :=
  match d with
  | [] => [(key, [v])]
  | (k, vs) :: d' =>
      if bool_decide (k = key) then (k, vs ++ [v]) :: d'
      else (k, vs) :: group_append key v d'
  end.

(** The state of the loop of [main]: the results already rewritten (the
    loop stores the new descriptor into each result in place) and the two
    groupings. *)
Record labelling := {
  labelled : list probe;
  by_country : groups;
  by_protocol : groups;
}.

Section Labelling.
Context `{Interp}.

(** [random.choice(seq)], as the [k]-th draw of the run *)
Definition choice {A} (w : world) (k : nat) (seq : list A) : res A :=
  match seq with
  | [] => Raise IndexError
  | _ => index seq (random_index w k mod length seq)
  end.

(** Lines 150-154: the country and flag of a result. *)
Definition geo_tag (w : world) (result : probe) : res (str * str) :=
  let body :=
    ip ← gethostbyname w (host result);
    get_country_and_flag ip (geo_db w) in
  match body with
  | Raise e => if isinstance e gaierror then Ok (lit "Unk.", globe) else Raise e
  | outcome => outcome
  end.

(** Line 160: the display name. *)
Definition new_name_of (flag country : str) (i : nat) (brand emoji : str) : str :=
  flag ++ lit " " ++ country ++ lit " #" ++ fmt_03d i ++ lit " |" ++
  brand ++ lit " " ++ emoji.

(** Lines 150-169: one iteration, for the result of rank [i]. *)
Definition label_step (w : world) (cfg : settings) (i : nat) (result : probe)
    (st : labelling) : res labelling :=
  '(country, flag) ← geo_tag w result;
  selected_brand ← choice w (2 * (i - 1)) (BRANDS_LIST cfg);
  selected_emoji ← choice w (2 * (i - 1) + 1) (EMOJIS_LIST cfg);
  let new_name := new_name_of flag country i selected_brand selected_emoji in
  original_link ← index (split [chr_hash] (config result)) 0;
  quoted ← quote new_name;
  let named_config := original_link ++ [chr_hash] ++ quoted in
  proto ← index (split SEP named_config) 0;
  mret {| labelled :=
            labelled st ++
              [{| config := named_config; ping := ping result; host := host result |}];
          by_country := group_append country named_config (by_country st);
          by_protocol := group_append proto named_config (by_protocol st) |}.

(** [for i, res in enumerate(final_results, 1)] *)
Fixpoint label_loop (w : world) (cfg : settings) (i : nat) (rs : list probe)
    (st : labelling) : res labelling :=
  match rs with
  | [] => mret st
  | result :: rs' =>
      st' ← label_step w cfg i result st;
      label_loop w cfg (S i) rs' st'
  end.

Definition label_all (w : world) (cfg : settings) (final_results : list probe)
  : res labelling :=
  label_loop w cfg 1 final_results
    {| labelled := []; by_country := []; by_protocol := [] |}.
End Labelling.

(** ** Base64 *)

(** [table_b2a_base64] *)
Definition b64_char (v : N) : N :=
  if v <? 26 then 65 + v
  else if v <? 52 then 71 + v
  else if v <? 62 then v - 4
  else if v =? 62 then 43
  else 47.

(** [table_a2b_base64]; [None] for a character outside the alphabet. *)
Definition b64_value (c : N) : option N :=
  if (65 <=? c) && (c <=? 90) then Some (c - 65)
  else if (97 <=? c) && (c <=? 122) then Some (c - 71)
  else if (48 <=? c) && (c <=? 57) then Some (c + 4)
  else if c =? 43 then Some 62
  else if c =? 47 then Some 63
  else None.

Definition b64_pad : N := 61.

(** [base64.b64encode(bs)] *)
Fixpoint b64encode (bs : bytes) : bytes :=
  match bs with
  | [] => []
  | [a] =>
      [b64_char (N.shiftr a 2); b64_char (N.shiftl (N.land a 3) 4);
       b64_pad; b64_pad]
  | [a; b] =>
      [b64_char (N.shiftr a 2);
       b64_char (N.lor (N.shiftl (N.land a 3) 4) (N.shiftr b 4));
       b64_char (N.shiftl (N.land b 15) 2); b64_pad]
  | a :: b :: c :: rest =>
      [b64_char (N.shiftr a 2);
       b64_char (N.lor (N.shiftl (N.land a 3) 4) (N.shiftr b 4));
       b64_char (N.lor (N.shiftl (N.land b 15) 2) (N.shiftr c 6));
       b64_char (N.land c 63)] ++ b64encode rest
  end.

(** [binascii.a2b_base64(s)] in its default, lenient mode: characters
    outside the alphabet are skipped, a complete pad sequence ends the
    input, and a trailing incomplete quad is an error. *)
Fixpoint a2b_base64_go (quad_pos : nat) (leftchar : N) (pads : nat) (s : bytes)
  : res bytes :=
  match s with
  | [] => if (quad_pos =? 0)%nat then Ok [] else Raise ValueError
  | this_ch :: s' =>
      if this_ch =? b64_pad then
        if (2 <=? quad_pos)%nat && (4 <=? quad_pos + S pads)%nat then Ok []
        else a2b_base64_go quad_pos leftchar
               (if (2 <=? quad_pos)%nat then S pads else pads) s'
      else
        match b64_value this_ch with
        | None => a2b_base64_go quad_pos leftchar pads s'
        | Some v =>
            match quad_pos with
            | 0%nat => a2b_base64_go 1 v 0 s'
            | 1%nat =>
                out ← a2b_base64_go 2 (N.land v 0x0f) 0 s';
                mret (N.lor (N.shiftl leftchar 2) (N.shiftr v 4) :: out)
            | 2%nat =>
                out ← a2b_base64_go 3 (N.land v 0x03) 0 s';
                mret (N.lor (N.shiftl leftchar 4) (N.shiftr v 2) :: out)
            | _ =>
                out ← a2b_base64_go 0 0 0 s';
                mret (N.lor (N.shiftl leftchar 6) v :: out)
            end
        end
  end.

Definition a2b_base64 (s : bytes) : res bytes := a2b_base64_go 0 0 0 s.

(** [base64.b64decode(s)] for a [str] or [bytes] argument *)
Definition b64decode (s : str) : res bytes :=
  if is_ascii s then a2b_base64 s else Raise ValueError.

(** ** Source aggregation *)

(** The line boundaries of [str.splitlines] other than ["\r\n"]. *)
Definition is_linebreak (c : char) : bool :=
  (10 <=? c) && (c <=? 13) || (28 <=? c) && (c <=? 30) ||
  (c =? 133) || (c =? 8232) || (c =? 8233).

(** [s.splitlines()]; [cur] is the current line, reversed. *)
Fixpoint splitlines_go (cur : str) (s : str) : list str :=
  match s with
  | [] => match cur with [] => [] | _ => [rev cur] end
  | c :: s' =>
      if c =? 13 then
        match s' with
        | 10 :: s'' => rev cur :: splitlines_go [] s''
        | _ => rev cur :: splitlines_go [] s'
        end
      else if is_linebreak c then rev cur :: splitlines_go [] s'
      else splitlines_go (c :: cur) s'
  end.

Definition splitlines (s : str) : list str := splitlines_go [] s.

Section Sources.
Context `{Interp}.

(** Lines 54-60: the lines of one fetched body.  The padding added before
    the decoding attempt stays on the text when the attempt fails. *)
Definition source_lines (content : str) : list str :=
  let content :=
    if (length content mod 4 =? 0)%nat then content
    else content ++ replicate (4 - length content mod 4) b64_pad in
  match b64decode content with
  | Ok decoded => splitlines (decode_utf8_ignore decoded)
  | Raise _ => splitlines content
  end.

Definition source_url (source_path : str) : str :=
  lit "https://raw.githubusercontent.com/" ++ source_path.

(** The loop of [get_sources]: the set [all_configs]. *)
Definition collect (w : world) (sources : list str) : gset str :=
  foldl (λ all_configs source_path,
           match http_get w (source_url source_path) with
           | Some content => all_configs ∪ list_to_set (source_lines content)
           | None => all_configs
           end) ∅ sources.

(** The lines passed to [all_configs.update], in order and with their
    repetitions. *)
Definition insertions (w : world) (sources : list str) : list str :=
  sources ≫= λ source_path,
    match http_get w (source_url source_path) with
    | Some content => source_lines content
    | None => []
    end.

(** Iteration over a [set] built by the insertions [history]: its
    elements in the order of the world. *)
Definition set_iter (w : world) (history : list str) (s : gset str) : list str :=
  sorted (set_position w history) (elements s).

(** [get_sources]: [list(filter(None, all_configs))]; the console output
    is not modelled. *)
Definition get_sources (w : world) (cfg : settings) : list str :=
  filter (λ line : str, line ≠ [])
    (set_iter w (insertions w (sources_files cfg))
       (collect w (sources_files cfg))).
End Sources.

(** ** Output *)

Inductive message :=
  | MsgReady (n : nat)
  | MsgNaming
  | MsgSaving
  | MsgSaved
  | MsgNothingFound
  | MsgFinished.

Record outcome := {
  (** The paths on which [os.makedirs] succeeded, in order. *)
  dirs : list str;
  (** The files opened for writing, in order: path and content. *)
  files : list (str * bytes);
  (** What [main] prints. *)
  stdout : list message;
}.

Definition nothing : outcome := {| dirs := []; files := []; stdout := [] |}.

(** The effects of [a] followed by those of [b]. *)
Definition and_then (a b : outcome) : outcome :=
  {| dirs := dirs a ++ dirs b;
     files := files a ++ files b;
     stdout := stdout a ++ stdout b |}.

(** A computation with effects: what it did and how it ended.  What was
    done before an exception stays done. *)
Definition io (A : Type) : Type := outcome * res A.

#[global] Instance io_ret : MRet io := λ A a, (nothing, Ok a).
#[global] Instance io_bind : MBind io := λ A B f m,
  match m with
  | (before, Ok a) => (and_then before (f a).1, (f a).2)
  | (before, Raise e) => (before, Raise e)
  end.

(** A computation without effects. *)
Definition pure {A} (r : res A) : io A := (nothing, r).

Definition print (m : message) : io unit :=
  ({| dirs := []; files := []; stdout := [m] |}, Ok ()).

(** [for a in l: f(a)] *)
Fixpoint for_each {A} (f : A → io unit) (l : list A) : io unit :=
  match l with
  | [] => mret ()
  | a :: l' => f a ;; for_each f l'
  end.

(** [os.path.join(a, b)] on POSIX *)
Definition path_join (a b : str) : str :=
  match b with
  | 47 :: _ => b
  | _ =>
      match last a with
      | None => b
      | Some 47 => a ++ b
      | Some _ => a ++ [47] ++ b
      end
  end.

(** [os.makedirs(d, exist_ok=True)]; the empty path names no directory. *)
Definition makedirs (w : world) (d : str) : io unit :=
  match d with
  | [] => pure (Raise FileNotFoundError)
  | _ =>
      match makedirs_error w d with
      | Some e => pure (Raise e)
      | None => ({| dirs := [d]; files := []; stdout := [] |}, Ok ())
      end
  end.

(** [dirs_to_create] of [setup_directories]; [os.path.join] of three
    components joins from the left. *)
Definition dirs_to_create (cfg : settings) : list str :=
  [ base_dir cfg;
    path_join (base_dir cfg) (lit "v2ray");
    path_join (base_dir cfg) (lit "base64");
    path_join (path_join (base_dir cfg) (lit "filtered")) (lit "subs");
    path_join (base_dir cfg) (lit "regions") ].

Definition setup_directories (w : world) (cfg : settings) : io unit :=
  for_each (makedirs w) (dirs_to_create cfg).

(** [with open(path, "w", encoding="utf-8") as f: f.write(text)].  The
    file is opened, hence created or emptied, before the text is computed
    and encoded; when that raises the file is left empty. *)
Definition write_text (w : world) (path : str) (text : res str) : io unit :=
  if writable w path then
    match t ← text; encode_utf8 t with
    | Ok content =>
        ({| dirs := []; files := [(path, content)]; stdout := [] |}, Ok ())
    | Raise e =>
        ({| dirs := []; files := [(path, [])]; stdout := [] |}, Raise e)
    end
  else pure (Raise OSError).

Section Main.
Context `{Interp}.

(** [for name, configs in d.items(): ...] of lines 177-179 and 182-184. *)
Definition write_groups (w : world) (dir : str) (d : groups) : io unit :=
  for_each (λ '(name, configs),
              write_text w (path_join dir (name ++ lit ".txt"))
                (Ok (join [chr_newline] configs))) d.

(** Line 143: opening the database.  The loop reads the reader from the
    world. *)
Definition open_geo_db (w : world) : io unit :=
  match geo_db_error w with
  | Some e => pure (Raise e)
  | None => mret ()
  end.

Definition main (w : world) (cfg : settings) : io unit :=
  setup_directories w cfg;;
  let unique_configs := get_sources w cfg in
  print (MsgReady (length unique_configs));;
  let final_results := run w unique_configs in
  match final_results with
  | [] => print MsgNothingFound
  | _ =>
      open_geo_db w;;
      print MsgNaming;;
      st ← pure (label_all w cfg final_results);
      let regions_dir := path_join (base_dir cfg) (lit "regions") in
      write_groups w regions_dir (by_country st);;
      let filtered_dir :=
        path_join (path_join (base_dir cfg) (lit "filtered")) (lit "subs") in
      write_groups w filtered_dir (by_protocol st);;
      print MsgSaving;;
      let all_final_links := config <$> labelled st in
      let v2ray_dir := path_join (base_dir cfg) (lit "v2ray") in
      let base64_dir := path_join (base_dir cfg) (lit "base64") in
      write_text w (path_join v2ray_dir (lit "all_sub.txt"))
        (Ok (join [chr_newline] all_final_links));;
      write_text w (path_join base64_dir (lit "all_sub.txt"))
        (b64encode <$> encode_utf8 (join [chr_newline] all_final_links));;
      print MsgSaved
  end;;
  print MsgFinished.
End Main.

(** ** The value of a clock reading *)

(** The rational a finite binary64 value stands for. *)
Definition float_value (x : float) : option Q :=
  match Prim2SF x with
  | S754_zero _ => Some 0%Q
  | S754_finite s m e =>
      let n := if s then Z.neg m else Z.pos m in
      Some (if (0 <=? e)%Z then inject_Z (n * 2 ^ e)
            else Qmake n (2 ^ Z.to_pos (- e)))
  | _ => None
  end.

(** [p] is an integer nearest to [q]. *)
Definition nearest (p : Z) (q : Q) : Prop :=
  (Qabs (q - inject_Z p) <= 1 # 2)%Q.

(** Truncation toward zero. *)
Definition Qtruncate (q : Q) : Z := Z.quot (Qnum q) (Z.pos (Qden q)).

(** ** Notions used to state the properties *)

(** Everything before the first occurrence of [c]. *)
Fixpoint before_first (c : char) (s : str) : str :=
  match s with
  | [] => []
  | a :: s' => if a =? c then [] else a :: before_first c s'
  end.

Definition is_digit (c : char) : Prop := 48 ≤ c ≤ 57.

(** The number a text of decimal digits stands for. *)
Definition digits_value (s : str) : N :=
  foldl (λ acc c, 10 * acc + (c - 48)) 0 s.

(** [s] is [n] zero-padded to [width] digits, in the words of the
    specification: decimal digits only, standing for [n], at least
    [width] of them, and none more than [n] needs beyond that. *)
Definition zero_padded (width : nat) (n : N) (s : str) : Prop :=
  Forall is_digit s ∧ digits_value s = n ∧ (width ≤ length s)%nat ∧
  ((width < length s)%nat → head s ≠ Some 48).

(** The value of a hexadecimal digit, in either case. *)
Definition hex_value (c : char) : option N :=
  if (48 <=? c) && (c <=? 57) then Some (c - 48)
  else if (65 <=? c) && (c <=? 70) then Some (c - 55)
  else if (97 <=? c) && (c <=? 102) then Some (c - 87)
  else None.

(** Percent-decoding as RFC 3986 defines it: [%] followed by two
    hexadecimal digits stands for the octet they denote, every other
    character for itself. *)
Fixpoint percent_decode (s : str) : option bytes :=
  match s with
  | [] => Some []
  | c :: s' =>
      if c =? 37 then
        match s' with
        | x :: y :: s'' =>
            hi ← hex_value x;
            lo ← hex_value y;
            octets ← percent_decode s'';
            Some (16 * hi + lo :: octets)
        | _ => None
        end
      else
        octets ← percent_decode s';
        Some (c :: octets)
  end.

(** The characters RFC 3986 calls unreserved. *)
Definition unreserved (c : char) : Prop :=
  65 ≤ c ≤ 90 ∨ 97 ≤ c ≤ 122 ∨ 48 ≤ c ≤ 57 ∨
  c = 45 ∨ c = 46 ∨ c = 95 ∨ c = 126.

(** [q] is a percent-encoding of [octets] that can stand in a URI
    fragment: it decodes to them, and outside its escapes it has only
    unreserved characters and [/]. *)
Definition percent_encoded (octets : bytes) (q : str) : Prop :=
  percent_decode q = Some octets ∧
  Forall (λ c, unreserved c ∨ c = 47 ∨ c = 37) q.

(** What one iteration of the labelling loop produces: the keys of the two
    groups and the rewritten result. *)
Record entry := {
  e_country : str;
  e_proto : str;
  e_named : probe;
}.

(** The list stored under a key of a [defaultdict(list)] (empty for a key
    that was never used). *)
Fixpoint group_get (key : str) (d : groups) : list str :=
  match d with
  | [] => []
  | (k, vs) :: d' => if bool_decide (k = key) then vs else group_get key d'
  end.

(** A sequence of [d[key].append(v)]. *)
Definition group_extend (d : groups) (kvs : list (str * str)) : groups :=
  foldl (λ d kv, group_append kv.1 kv.2 d) d kvs.

Definition country_pair (e : entry) : str * str :=
  (e_country e, config (e_named e)).
Definition proto_pair (e : entry) : str * str :=
  (e_proto e, config (e_named e)).

Section Labels.
Context `{Interp}.

(** [e] is what the loop produces for the result [r] at rank [i]. *)
Definition labels (w : world) (cfg : settings) (i : nat) (r : probe) (e : entry)
  : Prop :=
  ∃ flag brand emoji quoted,
    geo_tag w r = Ok (e_country e, flag) ∧
    brand ∈ BRANDS_LIST cfg ∧ emoji ∈ EMOJIS_LIST cfg ∧
    quote (new_name_of flag (e_country e) i brand emoji) = Ok quoted ∧
    e_named e = {| config := before_first chr_hash (config r) ++ [chr_hash] ++ quoted;
                   ping := ping r; host := host r |} ∧
    index (split SEP (config (e_named e))) 0 = Ok (e_proto e).
End Labels.

(** The paths of the two aggregate files. *)
Definition v2ray_path (cfg : settings) : str :=
  path_join (path_join (base_dir cfg) (lit "v2ray")) (lit "all_sub.txt").
Definition base64_path (cfg : settings) : str :=
  path_join (path_join (base_dir cfg) (lit "base64")) (lit "all_sub.txt").

(** ** A concrete run *)

(** One source holding four lines, sent in Base64.  The descriptor with
    two [@] is parsed to the unreachable host [b]; of the other two, one
    connects in 125 ms and one in under a millisecond, and the host of the
    latter does not resolve. *)
Definition demo_body : str :=
  lit "trojan://x@93.184.216.34:443#old" ++ [chr_newline] ++
  lit "vless://b@[::1]:8443?x=1#n" ++ [chr_newline] ++ [chr_newline] ++
  lit "ss://a@b@h:80" ++ [chr_newline] ++ lit "junk".

Definition demo_world : world :=
  {| http_get := λ url,
       if bool_decide (url = source_url (lit "u/r/main/a.txt"))
       then Some (b64encode demo_body) else None;
     set_position := λ _ s, Z.of_nat (length s);
     yield_position := λ s, (- Z.of_nat (length s))%Z;
     connect := λ _ h p,
       if bool_decide (h = lit "b") then None
       else Some (1.5%float,
                  if bool_decide (p = 443%Z) then 1.625%float
                  else 1.500732421875%float);
     gethostbyname := λ h,
       if bool_decide (h = lit "::1") then Raise gaierror else Ok h;
     geo_db := Some (λ _, Ok (Some (lit "US")));
     geo_db_error := None;
     random_index := λ k, k;
     writable := λ _, true;
     makedirs_error := λ _, None |}.

Definition demo_settings : settings :=
  {| sources_files := [lit "u/r/main/a.txt"];
     out_dir := None;
     brands := None;
     emojis := Some [lit "e1"; lit "e2"] |}.

(** The same world with every connection refused. *)
Definition dead_world : world :=
  {| http_get := http_get demo_world;
     set_position := set_position demo_world;
     yield_position := yield_position demo_world;
     connect := λ _ _ _, None;
     gethostbyname := gethostbyname demo_world;
     geo_db := geo_db demo_world;
     geo_db_error := geo_db_error demo_world;
     random_index := random_index demo_world;
     writable := writable demo_world;
     makedirs_error := makedirs_error demo_world |}.

Definition demo_results : list probe :=
  run (H := ascii_interp) demo_world
    (get_sources (H := ascii_interp) demo_world demo_settings).

Definition demo_labelling : labelling :=
  match label_all (H := ascii_interp) demo_world demo_settings demo_results with
  | Ok st => st
  | Raise _ => {| labelled := []; by_country := []; by_protocol := [] |}
  end.

(** The numbers below [n], to check a property of bytes case by case. *)
Definition below (n : nat) : list N := map N.of_nat (seq 0 n).

Definition demo_outcome : outcome :=
  (main (H := ascii_interp) demo_world demo_settings).1.

(** The settings with another list of sources. *)
Definition with_sources (cfg : settings) (sources : list str) : settings :=
  {| sources_files := sources;
     out_dir := out_dir cfg;
     brands := brands cfg;
     emojis := emojis cfg |}.

(** No character of [s] ends a line. *)
Definition one_line (s : str) : Prop :=
  Forall (λ c, is_linebreak c = false) s.

(** What follows a carriage return once the line feed paired with it, if
    there is one, has been passed. *)
Definition skip_lf (s : str) : str :=
  match s with
  | 10 :: s' => s'
  | _ => s
  end.

(** The world of the concrete run with the futures handed back in the
    opposite order. *)
Definition reversed_world : world :=
  {| http_get := http_get demo_world;
     set_position := set_position demo_world;
     yield_position := λ s, Z.of_nat (length s);
     connect := connect demo_world;
     gethostbyname := gethostbyname demo_world;
     geo_db := geo_db demo_world;
     geo_db_error := geo_db_error demo_world;
     random_index := random_index demo_world;
     writable := writable demo_world;
     makedirs_error := makedirs_error demo_world |}.


(** A text that is empty or begins with [#]: what may follow the part of a
    descriptor before its fragment. *)
Definition fragment_or_end (x : str) : Prop :=
  x = [] ∨ ∃ t, x = chr_hash :: t.

(** The file written for a group under [dir]: named after the key, it
    holds the descriptors of the group, one per line. *)
Definition group_file (w : world) (dir : str) (g : str * list str)
    (f : str * bytes) : Prop :=
  f.1 = path_join dir (g.1 ++ lit ".txt") ∧
  writable w f.1 = true ∧
  encode_utf8 (join [chr_newline] g.2) = Ok f.2.

(** A path formed by [os.path.join] from a directory that
    [setup_directories] creates. *)
Definition in_created_dir (cfg : settings) (path : str) : Prop :=
  ∃ dir name, dir ∈ dirs_to_create cfg ∧ path = path_join dir name.

Definition is_bracket (c : char) : Prop := c = chr_lbracket ∨ c = chr_rbracket.

(** Two sources of one line each, in a world where a set is iterated in
    the order in which its elements were first inserted.  Neither body is
    valid Base64, so each is taken as it is. *)
Definition two_source_world : world :=
  {| http_get := λ url,
       if bool_decide (url = source_url (lit "r/a")) then Some (lit "ss://a:1")
       else if bool_decide (url = source_url (lit "r/b")) then Some (lit "ss://b:2")
       else None;
     set_position := λ history s,
       Z.of_nat (default O (fst <$> list_find (λ x, x = s) history));
     yield_position := yield_position demo_world;
     connect := connect demo_world;
     gethostbyname := gethostbyname demo_world;
     geo_db := geo_db demo_world;
     geo_db_error := geo_db_error demo_world;
     random_index := random_index demo_world;
     writable := writable demo_world;
     makedirs_error := makedirs_error demo_world |}.

Definition two_source_settings : settings :=
  {| sources_files := [lit "r/a"; lit "r/b"];
     out_dir := None;
     brands := None;
     emojis := None |}.
(** ** Facts about splitting *)

Lemma split_go_nonempty sep skip s : split_go sep skip s ≠ [].
Proof.
  revert skip; induction s as [|c s IH]; intros skip; simpl; [done|].
  destruct skip as [|k]; [|apply IH].
  destruct (startswith sep (c :: s)); [done|].
  destruct (split_go sep 0 s); done.
Qed.

Lemma split_go_length_pos sep skip s : (1 ≤ length (split_go sep skip s))%nat.
Proof.
  pose proof (split_go_nonempty sep skip s).
  destruct (split_go sep skip s); simpl; [done|lia].
Qed.

Lemma split_cons_length sep c s :
  startswith sep (c :: s) = false →
  length (split sep (c :: s)) = length (split sep s).
Proof.
  unfold split; simpl; intros ->.
  pose proof (split_go_nonempty sep 0 s).
  destruct (split_go sep 0 s); done.
Qed.

(** When the separator occurs, [split] returns at least two pieces, so
    the subscript [[1]] is in range. *)
Lemma contains_split_length sep s :
  sep ≠ [] → contains sep s = true → (2 ≤ length (split sep s))%nat.
Proof.
  intros Hsep; induction s as [|c s IH]; intros Hc.
  - destruct sep; [done|]. simpl in Hc. done.
  - simpl in Hc. destruct (startswith sep (c :: s)) eqn:Hp.
    + unfold split; simpl. rewrite Hp. simpl.
      pose proof (split_go_length_pos sep (length sep - 1) s). lia.
    + rewrite split_cons_length by done. apply IH. exact Hc.
Qed.

Lemma index_0_split sep s : ∃ p, index (split sep s) 0 = Ok p.
Proof.
  unfold index, split. pose proof (split_go_nonempty sep 0 s).
  destruct (split_go sep 0 s) as [|p l]; [done|]. by exists p.
Qed.

Lemma index_1_split sep s :
  sep ≠ [] → contains sep s = true → ∃ p, index (split sep s) 1 = Ok p.
Proof.
  intros Hsep Hc. pose proof (contains_split_length sep s Hsep Hc) as Hl.
  unfold index. destruct (split sep s) as [|a [|b l]]; simpl in *; [lia..|].
  by exists b.
Qed.

(** Splitting on a single character. *)
Lemma split_char_cons c a s :
  split [c] (a :: s) =
    if c =? a then [] :: split [c] s
    else match split [c] s with
         | piece :: rest => (a :: piece) :: rest
         | [] => [[a]]
         end.
Proof. unfold split; simpl. destruct (c =? a); reflexivity. Qed.

Lemma contains_char_cons c a s :
  contains [c] (a :: s) = (c =? a) || contains [c] s.
Proof. simpl. by rewrite andb_true_r. Qed.

Lemma contains_char_elem c s : contains [c] s = true ↔ c ∈ s.
Proof.
  induction s as [|a s IH].
  - simpl. split; [done|]. intros Hin. inversion Hin.
  - rewrite contains_char_cons, orb_true_iff, IH, N.eqb_eq, elem_of_cons.
    done.
Qed.

Lemma contains_char_not_elem c s : contains [c] s = false ↔ c ∉ s.
Proof.
  rewrite <- contains_char_elem. destruct (contains [c] s); split; done.
Qed.

(** The pieces of a split contain no separator, and joining them with the
    separator gives the string back. *)
Lemma split_char_pieces c s : Forall (λ p, c ∉ p) (split [c] s).
Proof.
  induction s as [|a s IH].
  - repeat constructor. intros Hin; inversion Hin.
  - rewrite split_char_cons. destruct (c =? a) eqn:E.
    + constructor; [|done]. intros Hin; inversion Hin.
    + apply N.eqb_neq in E.
      destruct (split [c] s) as [|p l].
      * repeat constructor. rewrite list_elem_of_singleton. done.
      * inversion IH; subst. constructor; [|done].
        rewrite elem_of_cons. intros [?|?]; done.
Qed.

Lemma join_cons_cons sep p q l : join sep (p :: q :: l) = p ++ sep ++ join sep (q :: l).
Proof. reflexivity. Qed.

Lemma join_split_char c s : join [c] (split [c] s) = s.
Proof.
  induction s as [|a s IH]; [done|].
  rewrite split_char_cons. destruct (c =? a) eqn:E.
  - apply N.eqb_eq in E; subst a.
    pose proof (split_go_nonempty [c] 0 s) as Hne. fold (split [c] s) in Hne.
    destruct (split [c] s) as [|q l]; [done|].
    rewrite join_cons_cons, IH. done.
  - pose proof (split_go_nonempty [c] 0 s) as Hne. fold (split [c] s) in Hne.
    destruct (split [c] s) as [|p [|q l]]; [done|..].
    + simpl in *. by rewrite IH.
    + rewrite join_cons_cons. rewrite join_cons_cons in IH.
      rewrite <- app_comm_cons. by rewrite IH.
Qed.

(** The number of pieces is one more than the number of separators. *)
Lemma split_char_length c s : length (split [c] s) = S (count c s).
Proof.
  induction s as [|a s IH]; [done|].
  rewrite split_char_cons. simpl. destruct (c =? a) eqn:E.
  - simpl. by rewrite IH.
  - simpl. rewrite <- IH. destruct (split [c] s); done.
Qed.

Lemma not_contains_split sep s : contains sep s = false → split sep s = [s].
Proof.
  unfold split. induction s as [|c s IH]; simpl; [done|].
  intros [Hp Hc]%orb_false_iff. simpl in Hp. rewrite Hp.
  by rewrite IH.
Qed.

Lemma rsplit1_absent c s : contains [c] s = false → rsplit1 c s = [s].
Proof.
  induction s as [|a s IH]; [done|].
  rewrite contains_char_cons. intros [Ha Hs]%orb_false_iff.
  simpl. rewrite (IH Hs). rewrite N.eqb_sym, Ha. done.
Qed.

(** [rsplit(c, 1)] cuts at the last occurrence of [c]. *)
Lemma rsplit1_present c s :
  contains [c] s = true →
  ∃ before after, rsplit1 c s = [before; after] ∧
                  s = before ++ [c] ++ after ∧ c ∉ after.
Proof.
  induction s as [|a s IH]; [done|].
  rewrite contains_char_cons. intros Hc. simpl.
  destruct (contains [c] s) eqn:Hs.
  - destruct (IH eq_refl) as (b & t & -> & -> & Hn).
    by exists (a :: b), t.
  - rewrite orb_false_r in Hc. rewrite (rsplit1_absent c s Hs).
    rewrite N.eqb_sym, Hc. apply N.eqb_eq in Hc; subst a.
    exists [], s. split_and!; [done..|].
    by apply contains_char_not_elem.
Qed.

Section ParserFacts.
Context `{Interp}.

Lemma parse_target_stages config :
  parse_target config =
    if negb (contains SEP config) then Ok None else
    host_part ← host_part_of config;
    host_port_str ← host_port_str_of host_part;
    target ← host_and_port host_port_str;
    mret (Some target).
Proof.
  unfold parse_target, host_part_of, host_port_str_of, host_and_port.
  destruct (negb (contains SEP config)); [done|].
  destruct (index (split SEP config) 1) as [u|]; simpl; [|done].
  destruct (index (split [chr_hash] u) 0) as [b|]; simpl; [|done].
  destruct (index (split [chr_question] b) 0) as [hp|]; simpl; [|done].
  destruct (contains [chr_at] hp);
    [destruct (index (split [chr_at] hp) 1) as [hps|]|]; simpl; try done.
  - destruct (contains [chr_colon] hps); [|done].
    destruct (index (rsplit1 chr_colon hps) 0); simpl; [|done].
    destruct (index (rsplit1 chr_colon hps) 1); simpl; [|done].
    by destruct (py_int _).
  - destruct (contains [chr_colon] hp); [|done].
    destruct (index (rsplit1 chr_colon hp) 0); simpl; [|done].
    destruct (index (rsplit1 chr_colon hp) 1); simpl; [|done].
    by destruct (py_int _).
Qed.

Lemma SEP_nonempty : SEP ≠ [].
Proof. done. Qed.

(** No subscript of the parser is out of range. *)
Lemma host_part_of_ok config :
  contains SEP config = true → ∃ hp, host_part_of config = Ok hp.
Proof.
  intros Hc. unfold host_part_of.
  destruct (index_1_split SEP config SEP_nonempty Hc) as [u ->]. simpl.
  destruct (index_0_split [chr_hash] u) as [b ->]. simpl.
  apply index_0_split.
Qed.

Lemma host_part_of_contains config hp :
  host_part_of config = Ok hp → contains SEP config = true.
Proof.
  unfold host_part_of. destruct (contains SEP config) eqn:Hc; [done|].
  by rewrite (not_contains_split _ _ Hc).
Qed.

Lemma host_port_str_of_ok hp : ∃ hps, host_port_str_of hp = Ok hps.
Proof.
  unfold host_port_str_of. destruct (contains [chr_at] hp) eqn:Hc.
  - by apply index_1_split.
  - by exists hp.
Qed.

Lemma host_and_port_colon hps :
  contains [chr_colon] hps = true →
  ∃ before after,
    hps = before ++ [chr_colon] ++ after ∧ (chr_colon ∉ after) ∧
    host_and_port hps =
      (port ← py_int after;
       mret (strip [chr_lbracket; chr_rbracket] before, port)).
Proof.
  intros Hc. destruct (rsplit1_present _ _ Hc) as (b & a & Hr & Hs & Hn).
  exists b, a. split_and!; [done..|].
  unfold host_and_port. rewrite Hc, Hr. done.
Qed.

Lemma host_and_port_raises hps e :
  host_and_port hps = Raise e → e = ValueError.
Proof.
  destruct (contains [chr_colon] hps) eqn:Hc.
  - destruct (host_and_port_colon hps Hc) as (b & a & _ & _ & ->).
    unfold py_int. destruct (parse_long _); res_simpl; congruence.
  - unfold host_and_port. rewrite Hc. done.
Qed.
End ParserFacts.

(** ** The endpoint parser *)

Lemma split_char_two c s :
  contains [c] s = true →
  ∃ p0 p1 ps, split [c] s = p0 :: p1 :: ps ∧
    s = p0 ++ [c] ++ p1 ++ match ps with [] => [] | _ => c :: join [c] ps end ∧
    (c ∉ p0) ∧ (c ∉ p1).
Proof.
  intros Hc.
  pose proof (contains_split_length [c] s ltac:(done) Hc) as Hl.
  pose proof (join_split_char c s) as Hj.
  pose proof (split_char_pieces c s) as Hp.
  destruct (split [c] s) as [|p0 [|p1 ps]]; simpl in Hl; [lia..|].
  exists p0, p1, ps.
  apply Forall_cons in Hp as [H0 Hp]. apply Forall_cons in Hp as [H1 _].
  split_and!; [done| |done..].
  rewrite <- Hj. rewrite join_cons_cons. destruct ps; [by rewrite app_nil_r|].
  by rewrite join_cons_cons.
Qed.

(** C1, as the code has it: when the authority contains [@], host and port
    are taken from the piece between the first [@] and the next one (or
    the end of the authority).  With exactly one [@] this piece is the
    segment after the last [@]. *)
Theorem C1_credentials_segment `{Interp} (config hp : str) :
  host_part_of config = Ok hp →
  contains [chr_at] hp = true →
  ∃ user seg rest,
    hp = user ++ [chr_at] ++ seg ++ rest ∧
    (chr_at ∉ user) ∧ (chr_at ∉ seg) ∧ (rest = [] ∨ ∃ r, rest = chr_at :: r) ∧
    host_port_str_of hp = Ok seg ∧
    parse_target config = (target ← host_and_port seg; mret (Some target)) ∧
    (count chr_at hp = 1%nat → seg = after_last chr_at hp).
Proof.
  intros Hhp Hat.
  destruct (split_char_two _ _ Hat) as (p0 & p1 & ps & Hs & Heq & H0 & H1).
  exists p0, p1, (match ps with [] => [] | _ => chr_at :: join [chr_at] ps end).
  assert (host_port_str_of hp = Ok p1) as Hseg.
  { unfold host_port_str_of. rewrite Hat, Hs. done. }
  split_and!; try done.
  - destruct ps; [by left|right; eauto].
  - rewrite parse_target_stages.
    rewrite (host_part_of_contains _ _ Hhp). simpl. rewrite Hhp. simpl.
    rewrite Hseg. done.
  - intros Hcount. unfold after_last.
    pose proof (split_char_length chr_at hp) as Hl.
    rewrite Hcount, Hs in Hl. rewrite Hs.
    destruct ps; [done|]. simpl in Hl. lia.
Qed.

(** The theorem at the descriptor [vless://b@[::1]:8443#old]. *)
Lemma C1_credentials_segment_witness :
  ∃ user seg rest,
    lit "b@[::1]:8443" = user ++ [chr_at] ++ seg ++ rest ∧
    (chr_at ∉ user) ∧ (chr_at ∉ seg) ∧ (rest = [] ∨ ∃ r, rest = chr_at :: r) ∧
    host_port_str_of (lit "b@[::1]:8443") = Ok seg ∧
    parse_target (H := ascii_interp) (lit "vless://b@[::1]:8443#old") =
      (target ← host_and_port (H := ascii_interp) seg; mret (Some target)) ∧
    (count chr_at (lit "b@[::1]:8443") = 1%nat →
     seg = after_last chr_at (lit "b@[::1]:8443")).
Proof.
  apply (C1_credentials_segment (H := ascii_interp)
           (lit "vless://b@[::1]:8443#old") (lit "b@[::1]:8443"));
    reflexivity.
Defined.

(** C1 as stated fails: in [ss://a@b@h:80] the segment after the last [@]
    is [h:80], which would give host [h] and port 80, but the parser
    returns host [b] and the default port. *)
Lemma C1_counterexample :
  host_part_of (lit "ss://a@b@h:80") = Ok (lit "a@b@h:80") ∧
  contains [chr_at] (lit "a@b@h:80") = true ∧
  after_last chr_at (lit "a@b@h:80") = lit "h:80" ∧
  host_and_port (H := ascii_interp) (lit "h:80") = Ok (lit "h", 80%Z) ∧
  parse (H := ascii_interp) (lit "ss://a@b@h:80") = Some (lit "b", 443%Z).
Proof. repeat split; reflexivity. Qed.

Lemma parse_stages `{Interp} (config hp hps : str) :
  host_part_of config = Ok hp →
  host_port_str_of hp = Ok hps →
  parse_target config = (target ← host_and_port hps; mret (Some target)).
Proof.
  intros Hhp Hhps. rewrite parse_target_stages.
  rewrite (host_part_of_contains _ _ Hhp). simpl.
  rewrite Hhp. simpl. rewrite Hhps. done.
Qed.

(** C2, as the code has it: parsing never lets an exception escape (no
    subscript is out of range, and the [ValueError] of a port that is not
    an integer literal is caught), and it returns either a rejection or a
    complete pair of host and port.  A descriptor without [://] is
    rejected; otherwise the port is 443 when the authority has no colon,
    and else the value of the text after its last colon, with no check of
    its range, and the host may be empty. *)
Theorem C2_parser_outcomes `{Interp} (config : str) :
  (parse_target config = Ok (parse config) ∨
   (parse_target config = Raise ValueError ∧ parse config = None)) ∧
  (contains SEP config = false → parse config = None) ∧
  (contains SEP config = true →
   ∃ hp hps,
     host_part_of config = Ok hp ∧ host_port_str_of hp = Ok hps ∧
     ((contains [chr_colon] hps = false ∧ parse config = Some (hps, 443%Z)) ∨
      (∃ before after,
         hps = before ++ [chr_colon] ++ after ∧ (chr_colon ∉ after) ∧
         parse config =
           match py_int after with
           | Ok port => Some (strip [chr_lbracket; chr_rbracket] before, port)
           | Raise _ => None
           end))).
Proof.
  assert (contains SEP config = false → parse_target config = Ok None) as Hno.
  { intros Hc. rewrite parse_target_stages, Hc. done. }
  split_and!.
  - unfold parse. destruct (contains SEP config) eqn:Hc.
    + destruct (host_part_of_ok _ Hc) as [hp Hhp].
      destruct (host_port_str_of_ok hp) as [hps Hhps].
      rewrite (parse_stages _ _ _ Hhp Hhps).
      destruct (host_and_port hps) as [t|e] eqn:Ht; simpl; [by left|].
      right. by rewrite (host_and_port_raises _ _ Ht).
    + rewrite (Hno eq_refl). by left.
  - intros Hc. unfold parse. by rewrite (Hno Hc).
  - intros Hc. destruct (host_part_of_ok _ Hc) as [hp Hhp].
    destruct (host_port_str_of_ok hp) as [hps Hhps].
    exists hp, hps. split_and!; [done..|].
    unfold parse. rewrite (parse_stages _ _ _ Hhp Hhps).
    destruct (contains [chr_colon] hps) eqn:Hcol.
    + right. destruct (host_and_port_colon _ Hcol) as (b & a & Hs & Hn & ->).
      exists b, a. split_and!; [done..|]. by destruct (py_int a).
    + left. split; [done|]. unfold host_and_port. by rewrite Hcol.
Qed.

(** C2 as stated fails: the parser returns port 0, a port above 65535, a
    negative port, and an empty host. *)
Lemma C2_counterexample :
  parse (H := ascii_interp) (lit "a://h:0") = Some (lit "h", 0%Z) ∧
  ¬ (1 ≤ 0 ≤ 65535)%Z ∧
  parse (H := ascii_interp) (lit "a://h:99999") = Some (lit "h", 99999%Z) ∧
  ¬ (1 ≤ 99999 ≤ 65535)%Z ∧
  parse (H := ascii_interp) (lit "a://h:-5") = Some (lit "h", (-5)%Z) ∧
  parse (H := ascii_interp) (lit "a://") = Some ([], 443%Z).
Proof. split_and!; (reflexivity || lia). Qed.

(** The descriptors used as counterexamples are parsed in the same way by
    every interpreter: they are ASCII, so no Unicode table is consulted. *)
Lemma parse_examples_any_interp `{Interp} :
  parse (lit "ss://a@b@h:80") = Some (lit "b", 443%Z) ∧
  parse (lit "a://h:0") = Some (lit "h", 0%Z) ∧
  parse (lit "a://h:99999") = Some (lit "h", 99999%Z) ∧
  parse (lit "a://h:-5") = Some (lit "h", (-5)%Z) ∧
  parse (lit "a://") = Some ([], 443%Z) ∧
  parse (lit "vless://b@[::1]:8443?x=1#n") = Some (lit "::1", 8443%Z).
Proof. split_and!; reflexivity. Qed.

(** ** Sorting *)

Section SortedFacts.
Context {A : Type} (key : A → Z).

Lemma insert_by_perm x l : insert_by key x l ≡ₚ x :: l.
Proof.
  induction l as [|y l IH]; simpl; [done|].
  destruct (key x <=? key y)%Z; [done|].
  rewrite IH. apply Permutation_swap.
Qed.

Lemma sorted_perm l : sorted key l ≡ₚ l.
Proof.
  induction l as [|x l IH]; simpl; [done|].
  by rewrite insert_by_perm, IH.
Qed.

Lemma insert_by_hd x l y :
  HdRel (key_le key) y l → (key_le key) y x → HdRel (key_le key) y (insert_by key x l).
Proof.
  intros Hl Hx. destruct l as [|z l]; simpl.
  - by constructor.
  - destruct (key x <=? key z)%Z; constructor; [done|].
    by inversion Hl.
Qed.

Lemma insert_by_sorted x l :
  Sorted (key_le key) l → Sorted (key_le key) (insert_by key x l).
Proof.
  induction 1 as [|y l Hs IH Hhd]; simpl.
  - repeat constructor.
  - destruct (key x <=? key y)%Z eqn:E.
    + apply Z.leb_le in E. repeat constructor; done.
    + apply Z.leb_gt in E. constructor; [done|].
      apply insert_by_hd; [done|]. unfold key_le. lia.
Qed.

Lemma sorted_sorted l : Sorted (key_le key) (sorted key l).
Proof.
  induction l as [|x l IH]; simpl; [constructor|].
  by apply insert_by_sorted.
Qed.

Lemma Sorted_consecutive l i a b :
  Sorted (key_le key) l → l !! i = Some a → l !! S i = Some b → (key_le key) a b.
Proof.
  intros Hs. revert i. induction Hs as [|y l Hs IH Hhd]; intros i Ha Hb.
  - done.
  - destruct i as [|i]; simpl in *.
    + injection Ha as ->. destruct l as [|z l]; [done|].
      simpl in Hb. injection Hb as ->. by inversion Hhd.
    + by apply (IH i).
Qed.

Lemma sorted_nil_inv l : sorted key l = [] → l = [].
Proof.
  intros Hs. pose proof (sorted_perm l) as Hp. rewrite Hs in Hp.
  symmetry. by apply Permutation_nil_l.
Qed.

Lemma elem_of_sorted x l : x ∈ sorted key l ↔ x ∈ l.
Proof. by rewrite sorted_perm. Qed.

(** Stability: elements with the same key keep their order. *)
Lemma insert_by_filter (P : A → Prop) `{∀ a, Decision (P a)} x l :
  (∀ y, y ∈ l → P y → P x → key x = key y) →
  filter P (insert_by key x l) = filter P (x :: l).
Proof.
  induction l as [|y l IH]; intros Hk; simpl; [done|].
  destruct (key x <=? key y)%Z eqn:E; [done|].
  apply Z.leb_gt in E.
  rewrite (filter_cons P y), IH, !(filter_cons P x), (filter_cons P y).
  - destruct (decide (P x)) as [Hx|]; [|done].
    destruct (decide (P y)) as [Hy|]; [|done].
    specialize (Hk y (list_elem_of_here _ _) Hy Hx). lia.
  - intros z Hz. apply Hk. by apply list_elem_of_further.
Qed.

Lemma sorted_stable k l :
  filter (λ a, key a = k) (sorted key l) = filter (λ a, key a = k) l.
Proof.
  induction l as [|x l IH]; simpl; [done|].
  rewrite insert_by_filter.
  - by rewrite !(filter_cons _ x), IH.
  - intros; congruence.
Qed.
End SortedFacts.

(** ** The probe scheduler *)

Section RunFacts.
Context `{Interp}.

Lemma as_completed_perm w configs : as_completed w configs ≡ₚ configs.
Proof. apply sorted_perm. Qed.

(** The scheduler returns the successful probes, each once. *)
Lemma run_perm w configs :
  run w configs ≡ₚ omap (test_single w) (as_completed w configs).
Proof. apply sorted_perm. Qed.

Lemma elem_of_run w configs r :
  r ∈ run w configs ↔ ∃ c, c ∈ configs ∧ test_single w c = Some r.
Proof.
  rewrite run_perm, list_elem_of_omap.
  by setoid_rewrite (elem_of_sorted (yield_position w)).
Qed.

Lemma run_nil w configs :
  run w configs = [] ↔ ∀ c, c ∈ configs → test_single w c = None.
Proof.
  split.
  - intros Hr c Hc. destruct (test_single w c) as [r|] eqn:Ht; [|done].
    assert (r ∈ run w configs) as Hin by (apply elem_of_run; eauto).
    rewrite Hr in Hin. inversion Hin.
  - intros Hall. destruct (run w configs) as [|r l] eqn:Hr; [done|].
    assert (r ∈ run w configs) as Hin by (rewrite Hr; left).
    apply elem_of_run in Hin as (c & Hc & Ht). rewrite (Hall c Hc) in Ht. done.
Qed.
End RunFacts.

(** C5: in the sequence returned by the scheduler the latency never
    decreases from one element to the next, whatever the order in which
    the probes complete and are handed back (it is part of the world
    [w]). *)
Theorem C5_run_ascending `{Interp} (w : world) (configs : list str)
    (i : nat) (a b : probe) :
  run w configs !! i = Some a →
  run w configs !! S i = Some b →
  (ping a ≤ ping b)%Z.
Proof.
  intros Ha Hb.
  exact (Sorted_consecutive ping _ i a b (sorted_sorted ping _) Ha Hb).
Qed.

(** The theorem at the two reachable descriptors of the concrete run. *)
Lemma C5_run_ascending_witness :
  (ping {| config := lit "vless://b@[::1]:8443?x=1#n"; ping := 0;
           host := lit "::1" |}
   ≤ ping {| config := lit "trojan://x@93.184.216.34:443#old"; ping := 125;
             host := lit "93.184.216.34" |})%Z.
Proof.
  apply (C5_run_ascending (H := ascii_interp) demo_world
           (get_sources (H := ascii_interp) demo_world demo_settings) 0);
    vm_compute; reflexivity.
Defined.

(** ** Latency *)

Lemma Qtruncate_close (q : Q) : (Qabs (q - inject_Z (Qtruncate q)) < 1)%Q.
Proof.
  apply Qabs_Qlt_condition. destruct q as [n d]. unfold Qtruncate. simpl.
  pose proof (Z.quot_rem' n (Z.pos d)) as Hqr.
  assert (Z.abs (Z.rem n (Z.pos d)) < Z.pos d)%Z as Hb.
  { pose proof (Z.rem_bound_abs n (Z.pos d) ltac:(lia)). lia. }
  unfold Qlt, Qminus, Qplus, Qopp, inject_Z. simpl.
  split; nia.
Qed.

Lemma Qtruncate_nonneg (q : Q) :
  (0 <= q)%Q → (inject_Z (Qtruncate q) <= q)%Q.
Proof.
  destruct q as [n d]. unfold Qtruncate, Qle, inject_Z. simpl. intros Hn.
  assert (0 ≤ n)%Z as Hn' by lia.
  rewrite Z.quot_div_nonneg by lia.
  pose proof (Z.mul_div_le n (Z.pos d) ltac:(lia)). nia.
Qed.

(** [int] of a float is the truncation of its exact value. *)
Lemma float_to_int_truncates (x : float) (z : Z) :
  float_to_int x = Ok z →
  ∃ q, float_value x = Some q ∧ z = Qtruncate q.
Proof.
  unfold float_to_int, float_value.
  destruct (Prim2SF x) as [s| | |s m e]; try done.
  - intros [= <-]. by exists 0%Q.
  - intros [= <-]. eexists; split; [done|].
    destruct (0 <=? e)%Z eqn:E.
    + apply Z.leb_le in E. unfold Qtruncate. simpl.
      rewrite Z.quot_1_r, Z.shiftl_mul_pow2 by done.
      destruct s; [|done]. rewrite <- Z.mul_opp_l. done.
    + apply Z.leb_gt in E. unfold Qtruncate. simpl.
      rewrite Pos2Z.inj_pow, Z2Pos.id by lia.
      rewrite Z.shiftr_div_pow2 by lia.
      assert (0 < 2 ^ (- e))%Z by (apply Z.pow_pos_nonneg; lia).
      destruct s.
      * change (Z.neg m) with (- Z.pos m)%Z.
        rewrite Z.quot_opp_l by lia. rewrite Z.quot_div_nonneg by lia. done.
      * rewrite Z.quot_div_nonneg by lia. done.
Qed.

(** C4, as the code has it: the latency of a successful probe is the
    elapsed time, computed in binary64 from the two clock readings and
    multiplied by 1000, truncated toward zero by [int]; it is the integer
    part of the elapsed milliseconds, not the nearest integer. *)
Theorem C4_latency_truncated `{Interp} (w : world) (c : str) (r : probe) :
  test_single w c = Some r →
  ∃ h p start_time now q,
    parse c = Some (h, p) ∧
    connect w c h p = Some (start_time, now) ∧
    float_value ((now - start_time) * 1000)%float = Some q ∧
    ping r = Qtruncate q ∧
    (Qabs (q - inject_Z (ping r)) < 1)%Q ∧
    ((0 <= q)%Q → (inject_Z (ping r) <= q)%Q).
Proof.
  unfold test_single, test_single_body, parse.
  destruct (parse_target c) as [[[h p]|]|]; simpl; try done.
  destruct (connect w c h p) as [[t0 t1]|] eqn:Hc; [|done].
  destruct (float_to_int _) as [z|] eqn:Hz; simpl; [|done].
  intros [= <-]. simpl.
  destruct (float_to_int_truncates _ _ Hz) as (q & Hq & ->).
  exists h, p, t0, t1, q. split_and!; try done.
  - apply Qtruncate_close.
  - apply Qtruncate_nonneg.
Qed.

(** The theorem at the fast descriptor of the concrete run. *)
Lemma C4_latency_truncated_witness :
  ∃ h p start_time now q,
    parse (H := ascii_interp) (lit "vless://b@[::1]:8443?x=1#n") = Some (h, p) ∧
    connect demo_world (lit "vless://b@[::1]:8443?x=1#n") h p =
      Some (start_time, now) ∧
    float_value ((now - start_time) * 1000)%float = Some q ∧
    0%Z = Qtruncate q ∧
    (Qabs (q - inject_Z 0) < 1)%Q ∧
    ((0 <= q)%Q → (inject_Z 0 <= q)%Q).
Proof.
  apply (C4_latency_truncated (H := ascii_interp) demo_world
           (lit "vless://b@[::1]:8443?x=1#n")
           {| config := lit "vless://b@[::1]:8443?x=1#n"; ping := 0;
              host := lit "::1" |}).
  vm_compute; reflexivity.
Defined.

(** C4 as stated fails: a connect that takes 3/4096 s, that is 0.732 ms,
    is given latency 0, while the nearest integer is 1. *)
Lemma C4_counterexample :
  test_single (H := ascii_interp) demo_world (lit "vless://b@[::1]:8443?x=1#n") =
    Some {| config := lit "vless://b@[::1]:8443?x=1#n"; ping := 0;
            host := lit "::1" |} ∧
  connect demo_world (lit "vless://b@[::1]:8443?x=1#n") (lit "::1") 8443 =
    Some (1.5, 1.500732421875)%float ∧
  ∃ q, float_value ((1.500732421875 - 1.5) * 1000)%float = Some q ∧
       (q == 375 # 512)%Q ∧ ¬ nearest 0 q ∧ nearest 1 q.
Proof.
  split_and!; try (vm_compute; reflexivity).
  eexists. split; [vm_compute; reflexivity|].
  unfold nearest, Qeq, Qle, Qabs, Qminus, Qplus, Qopp, inject_Z. simpl.
  split_and!; lia.
Qed.

(** ** Groups *)

Lemma group_get_append k key v d :
  group_get k (group_append key v d) =
    if bool_decide (key = k) then group_get k d ++ [v] else group_get k d.
Proof.
  induction d as [|[k' vs] d IH]; simpl.
  - by repeat case_bool_decide.
  - repeat (case_bool_decide; simpl); subst; try done.
    all: rewrite IH; case_bool_decide; done.
Qed.

Lemma group_keys_append key v d :
  (group_append key v d).*1 =
    if bool_decide (key ∈ d.*1) then d.*1 else d.*1 ++ [key].
Proof.
  induction d as [|[k' vs] d IH]; [done|].
  cbn [group_append]. rewrite (fmap_cons fst (k', vs) d). cbn [fst].
  destruct (decide (k' = key)) as [->|Hne].
  - rewrite (bool_decide_true (key = key)) by done.
    rewrite fmap_cons. cbn [fst].
    rewrite (bool_decide_true (key ∈ key :: d.*1)); [done|left].
  - rewrite (bool_decide_false (k' = key)) by done.
    rewrite fmap_cons, IH. cbn [fst].
    destruct (decide (key ∈ d.*1)) as [Hin|Hin].
    + rewrite (bool_decide_true (key ∈ d.*1)) by done.
      rewrite (bool_decide_true (key ∈ k' :: d.*1)); [done|by right].
    + rewrite (bool_decide_false (key ∈ d.*1)) by done.
      rewrite (bool_decide_false (key ∈ k' :: d.*1)); [done|].
      intros [?|?]%elem_of_cons; [by subst|done].
Qed.

Lemma group_append_NoDup key v d :
  NoDup d.*1 → NoDup (group_append key v d).*1.
Proof.
  intros Hd. rewrite group_keys_append. case_bool_decide as Hin; [done|].
  apply NoDup_app. split_and!; [done| |apply NoDup_singleton].
  intros x Hx Hx'. apply list_elem_of_singleton in Hx'. by subst.
Qed.

Lemma group_extend_NoDup d kvs :
  NoDup d.*1 → NoDup (group_extend d kvs).*1.
Proof.
  revert d. induction kvs as [|kv kvs IH]; intros d Hd; [done|].
  apply IH. by apply group_append_NoDup.
Qed.

Lemma group_extend_get k d kvs :
  group_get k (group_extend d kvs) =
    group_get k d ++ (filter (λ kv, kv.1 = k) kvs).*2.
Proof.
  revert d. induction kvs as [|kv kvs IH]; intros d; simpl.
  - by rewrite app_nil_r.
  - unfold group_extend in *. simpl. rewrite IH, group_get_append.
    rewrite filter_cons. case_bool_decide; case_decide; try done.
    by rewrite fmap_cons, <- app_assoc.
Qed.

Lemma group_elem_get d k vs :
  NoDup d.*1 → (k, vs) ∈ d → group_get k d = vs.
Proof.
  induction d as [|[k' vs'] d IH]; intros Hd Hin; [inversion Hin|].
  apply NoDup_cons in Hd as [Hk' Hd]. simpl.
  apply elem_of_cons in Hin as [[= -> ->]|Hin].
  - by rewrite bool_decide_true.
  - rewrite bool_decide_false; [by apply IH|].
    intros ->. apply Hk'. apply list_elem_of_fmap. by exists (k, vs).
Qed.

(** A group holds, in order, the values appended under its key. *)
Lemma group_extend_elem kvs k vs :
  (k, vs) ∈ group_extend [] kvs → vs = (filter (λ kv, kv.1 = k) kvs).*2.
Proof.
  intros Hin. rewrite <- (group_elem_get _ _ _ (group_extend_NoDup [] kvs (NoDup_nil_2)) Hin).
  by rewrite group_extend_get.
Qed.

Lemma sublist_fmap {A B} (f : A → B) (l k : list A) :
  l `sublist_of` k → f <$> l `sublist_of` f <$> k.
Proof. induction 1; simpl; by constructor. Qed.

(** ** Labelling *)

Lemma index_0_split_char c s :
  index (split [c] s) 0 = Ok (before_first c s).
Proof.
  unfold index. induction s as [|a s IH]; [done|].
  rewrite split_char_cons. simpl. rewrite (N.eqb_sym a c).
  destruct (c =? a); [done|].
  destruct (split [c] s) as [|p l]; [done|].
  simpl in *. by injection IH as ->.
Qed.

Lemma before_first_spec c s :
  (c ∉ before_first c s) ∧
  ∃ rest, s = before_first c s ++ rest ∧ (rest = [] ∨ ∃ t, rest = c :: t).
Proof.
  induction s as [|a s (Hn & rest & Hs & Hr)]; simpl.
  - split; [by intros ?%elem_of_nil|]. exists []. by split; [|left].
  - destruct (a =? c) eqn:E.
    + apply N.eqb_eq in E as ->. split; [by intros ?%elem_of_nil|].
      exists (c :: s). split; [done|right; eauto].
    + apply N.eqb_neq in E. split.
      * intros [?|?]%elem_of_cons; [by subst|done].
      * exists rest. split; [|done]. simpl. by rewrite <- Hs.
Qed.

Lemma quote_byte_no_hash b : chr_hash ∉ quote_byte b.
Proof.
  unfold quote_byte, chr_hash. destruct (quote_safe b) eqn:Hs.
  - intros Hin%list_elem_of_singleton. subst b. done.
  - unfold hex_digit.
    intros Hin. repeat (apply elem_of_cons in Hin as [Hin|Hin]);
      [done| | |by apply elem_of_nil in Hin];
      match type of Hin with
      | context [if ?x <? 10 then _ else _] =>
          destruct (N.ltb_spec x 10); lia
      end.
Qed.

(** The output of [quote] has no [#]. *)
Lemma quote_no_hash s q : quote s = Ok q → chr_hash ∉ q.
Proof.
  unfold quote. destruct (encode_utf8 s) as [bs|]; [|done].
  intros [= <-]. rewrite list_elem_of_In.
  intros (l & Hl & Hin)%in_concat. apply in_map_iff in Hl as (b & <- & _).
  rewrite <- list_elem_of_In in Hin. by apply quote_byte_no_hash in Hin.
Qed.

Lemma choice_elem {A} w k (l : list A) x : choice w k l = Ok x → x ∈ l.
Proof.
  unfold choice, index. destruct l as [|a l]; [done|].
  destruct (_ !! _) eqn:Hl; [|done]. intros [= <-].
  by apply list_elem_of_lookup_2 in Hl.
Qed.

Section LabellingFacts.
Context `{Interp}.

Lemma label_step_inv w cfg i r st st' :
  label_step w cfg i r st = Ok st' →
  ∃ e, labels w cfg i r e ∧
       labelled st' = labelled st ++ [e_named e] ∧
       by_country st' = group_append (e_country e) (config (e_named e)) (by_country st) ∧
       by_protocol st' = group_append (e_proto e) (config (e_named e)) (by_protocol st).
Proof.
  unfold label_step.
  destruct (geo_tag w r) as [[country flag]|] eqn:Hg; [|done]. simpl.
  destruct (choice w _ (BRANDS_LIST cfg)) as [brand|] eqn:Hb; [|done]. simpl.
  destruct (choice w _ (EMOJIS_LIST cfg)) as [emoji|] eqn:He; [|done]. simpl.
  rewrite index_0_split_char. simpl.
  destruct (quote _) as [quoted|] eqn:Hq; [|done]. simpl.
  destruct (index (split SEP _) 0) as [proto|] eqn:Hp; [|done]. simpl.
  intros [= <-]. simpl.
  exists {| e_country := country; e_proto := proto;
            e_named := {| config := before_first chr_hash (config r) ++
                                      [chr_hash] ++ quoted;
                          ping := ping r; host := host r |} |}.
  split_and!; try done.
  exists flag, brand, emoji, quoted. simpl.
  split_and!; try done; by eapply choice_elem.
Qed.

Lemma label_loop_inv w cfg rs : ∀ i st st',
  label_loop w cfg i rs st = Ok st' →
  ∃ es,
    Forall2 (λ r e, ∃ j, rs !! j = Some r ∧ es !! j = Some e) rs es ∧
    (∀ j r, rs !! j = Some r → ∃ e, es !! j = Some e ∧ labels w cfg (i + j) r e) ∧
    labelled st' = labelled st ++ (e_named <$> es) ∧
    by_country st' = group_extend (by_country st) (country_pair <$> es) ∧
    by_protocol st' = group_extend (by_protocol st) (proto_pair <$> es).
Proof.
  induction rs as [|r rs IH]; intros i st st'; simpl.
  - intros [= <-]. exists []. split_and!; try done. by rewrite app_nil_r.
  - destruct (label_step w cfg i r st) as [st1|] eqn:Hs; [|done]. simpl.
    intros Hl. apply label_step_inv in Hs as (e & He & H1 & H2 & H3).
    apply IH in Hl as (es & Hf & Hes & H1' & H2' & H3').
    exists (e :: es). split_and!.
    + constructor; [by exists 0%nat|].
      eapply Forall2_impl; [done|]. intros r' e' (j & ? & ?). by exists (S j).
    + intros [|j] r'; simpl.
      * intros [= <-]. exists e. by rewrite Nat.add_0_r.
      * intros Hr. destruct (Hes j r' Hr) as (e' & ? & Hl').
        exists e'. split; [done|].
        by replace (i + S j)%nat with (S i + j)%nat by lia.
    + rewrite H1', H1, fmap_cons, <- app_assoc. done.
    + rewrite H2', H2. done.
    + rewrite H3', H3. done.
Qed.

Lemma label_all_inv w cfg final_results st :
  label_all w cfg final_results = Ok st →
  ∃ es,
    length es = length final_results ∧
    (∀ j r, final_results !! j = Some r →
            ∃ e, es !! j = Some e ∧ labels w cfg (S j) r e) ∧
    labelled st = e_named <$> es ∧
    by_country st = group_extend [] (country_pair <$> es) ∧
    by_protocol st = group_extend [] (proto_pair <$> es).
Proof.
  intros Hl. apply label_loop_inv in Hl as (es & Hf & Hes & H1 & H2 & H3).
  exists es. split_and!; try done.
  symmetry. by eapply Forall2_length.
Qed.
End LabellingFacts.

(** C9: every by-country group and every by-protocol group lists, in the
    order of the ranks, the rewritten descriptors of the results with its
    key; it is a subsequence of the full latency-ordered list. *)
Theorem C9_groups_in_rank_order `{Interp} (w : world) (cfg : settings)
    (final_results : list probe) (st : labelling) (key : str) (group : list str) :
  label_all w cfg final_results = Ok st →
  (key, group) ∈ by_country st ∨ (key, group) ∈ by_protocol st →
  group `sublist_of` (config <$> labelled st) ∧
  ∃ es : list entry,
    (∀ j r, final_results !! j = Some r →
            ∃ e, es !! j = Some e ∧ labels w cfg (S j) r e) ∧
    labelled st = e_named <$> es ∧
    (group = (filter (λ kv, kv.1 = key) (country_pair <$> es)).*2 ∨
     group = (filter (λ kv, kv.1 = key) (proto_pair <$> es)).*2).
Proof.
  intros Hl Hin.
  apply label_all_inv in Hl as (es & _ & Hes & Hlab & Hc & Hp).
  assert (∀ pair : entry → str * str,
            (∀ e, (pair e).2 = config (e_named e)) →
            (filter (λ kv, kv.1 = key) (pair <$> es)).*2
              `sublist_of` (config <$> labelled st)) as Hsub.
  { intros pair Hpair. rewrite Hlab, <- list_fmap_compose.
    replace (config ∘ e_named <$> es) with ((pair <$> es).*2).
    - apply sublist_fmap, sublist_filter.
    - rewrite <- list_fmap_compose. apply list_fmap_ext. intros ? e _. apply Hpair. }
  destruct Hin as [Hin|Hin].
  - rewrite Hc in Hin. apply group_extend_elem in Hin as ->.
    split; [by apply Hsub|]. exists es. by split_and!; [..|left].
  - rewrite Hp in Hin. apply group_extend_elem in Hin as ->.
    split; [by apply Hsub|]. exists es. by split_and!; [..|right].
Qed.

(** The theorem at the [trojan] group of the concrete run. *)
Lemma C9_groups_in_rank_order_witness :
  [lit "trojan://x@93.184.216.34:443#%F0%9F%87%BA%F0%9F%87%B8%20US%20%23002%20%7CV2XCore%20e2"]
    `sublist_of` (config <$> labelled demo_labelling) ∧
  ∃ es : list entry,
    (∀ j r, demo_results !! j = Some r →
            ∃ e, es !! j = Some e ∧
                 labels (H := ascii_interp) demo_world demo_settings (S j) r e) ∧
    labelled demo_labelling = e_named <$> es ∧
    ([lit "trojan://x@93.184.216.34:443#%F0%9F%87%BA%F0%9F%87%B8%20US%20%23002%20%7CV2XCore%20e2"]
       = (filter (λ kv, kv.1 = lit "trojan") (country_pair <$> es)).*2 ∨
     [lit "trojan://x@93.184.216.34:443#%F0%9F%87%BA%F0%9F%87%B8%20US%20%23002%20%7CV2XCore%20e2"]
       = (filter (λ kv, kv.1 = lit "trojan") (proto_pair <$> es)).*2).
Proof.
  apply (C9_groups_in_rank_order (H := ascii_interp) demo_world demo_settings
           demo_results demo_labelling (lit "trojan")).
  - vm_compute; reflexivity.
  - right. vm_compute. right. left.
Defined.

(** ** Geo classification *)

Lemma geo_tag_gaierror `{Interp} (w : world) (r : probe) :
  gethostbyname w (host r) = Raise gaierror →
  geo_tag w r = Ok (lit "Unk.", globe).
Proof. intros Hg. unfold geo_tag. rewrite Hg. done. Qed.

(** Without a resolved address or without a database the classifier
    answers with the Unknown tag. *)
Lemma get_country_and_flag_unknown `{Interp} (ip : str) (geo_reader : option reader) :
  ip = [] ∨ geo_reader = None →
  get_country_and_flag ip geo_reader = Ok (lit "Unknown", globe).
Proof.
  intros [-> | ->]; [done|]. by destruct ip.
Qed.

(** C3 at a host that does not resolve: [main] labels the result with the
    country code [Unk.], which is not the code [Unknown] that
    [get_country_and_flag] gives for its own failures; the flag is the
    globe in both. *)
Theorem C3_resolution_failure_tag :
  gethostbyname demo_world (lit "::1") = Raise gaierror ∧
  geo_tag (H := ascii_interp) demo_world
    {| config := lit "vless://b@[::1]:8443?x=1#n"; ping := 0; host := lit "::1" |}
    = Ok (lit "Unk.", globe) ∧
  lit "Unk." ≠ lit "Unknown" ∧
  Unknown = (lit "Unknown", globe) ∧
  get_country_and_flag (H := ascii_interp) (lit "93.184.216.34") None = Ok Unknown.
Proof. split_and!; try reflexivity. discriminate. Qed.

(** ** Source aggregation *)

(** C10: the list that [get_sources] returns, which is the list handed to
    the scheduler, holds no empty string; it holds exactly the non-empty
    lines collected from the sources. *)
Theorem C10_no_empty_descriptor `{Interp} (w : world) (cfg : settings) :
  Forall (λ line, line ≠ []) (get_sources w cfg) ∧
  Forall (λ line, line ≠ []) (as_completed w (get_sources w cfg)) ∧
  (∀ line, line ∈ get_sources w cfg ↔
           line ≠ [] ∧ line ∈ collect w (sources_files cfg)).
Proof.
  assert (∀ line, line ∈ get_sources w cfg ↔
                  line ≠ [] ∧ line ∈ collect w (sources_files cfg)) as Hiff.
  { intros line. unfold get_sources, set_iter.
    rewrite list_elem_of_filter, elem_of_sorted, elem_of_elements. done. }
  split_and!; [| |done].
  - apply Forall_forall. intros line Hin. by apply Hiff in Hin as [? _].
  - apply Forall_forall. intros line Hin.
    unfold as_completed in Hin. rewrite elem_of_sorted in Hin.
    by apply Hiff in Hin as [? _].
Qed.

(** ** Base64 *)

Lemma below_all (n : nat) (P : N → bool) :
  forallb P (below n) = true → ∀ a, a < N.of_nat n → P a = true.
Proof.
  intros Hall a Ha. rewrite forallb_forall in Hall. apply Hall.
  unfold below. apply in_map_iff. exists (N.to_nat a).
  split; [apply N2Nat.id|]. apply in_seq. lia.
Qed.

Tactic Notation "by_cases" constr(n) :=
  let Hlt := fresh "Hlt" in
  intros Hlt;
  match type of Hlt with
  | ?v < _ => revert v Hlt
  end;
  match goal with
  | |- ∀ x, x < _ → @?P x = true => apply (below_all n P)
  end;
  vm_compute; reflexivity.

(** The two tables are inverse to each other, and no character of the
    alphabet is the pad or lies outside ASCII. *)
Lemma b64_value_char v :
  v < 64 →
  (match b64_value (b64_char v) with Some v' => v' =? v | None => false end)
  && negb (b64_char v =? b64_pad) && (b64_char v <? 128) = true.
Proof. by_cases 64%nat. Qed.

Lemma b64_char_spec v :
  v < 64 →
  b64_value (b64_char v) = Some v ∧ b64_char v ≠ b64_pad ∧ b64_char v < 128.
Proof.
  intros Hv. pose proof (b64_value_char v Hv) as Ht.
  apply andb_true_iff in Ht as [Ht H3]. apply andb_true_iff in Ht as [H1 H2].
  destruct (b64_value (b64_char v)) as [v'|]; [|done].
  apply N.eqb_eq in H1 as ->. apply negb_true_iff, N.eqb_neq in H2.
  apply N.ltb_lt in H3. done.
Qed.

(** The six-bit groups of three bytes, and the bytes rebuilt from them:
    each identity is checked for every byte, the neighbouring byte entering
    only through the few bits that are used. *)
Lemma sextet_1 a : a < 256 → (N.shiftr a 2 <? 64) = true.
Proof. by_cases 256%nat. Qed.

Lemma low2 a : a < 256 → (N.land a 3 <? 4) = true.
Proof. by_cases 256%nat. Qed.

Lemma low4 a : a < 256 → (N.land a 15 <? 16) = true.
Proof. by_cases 256%nat. Qed.

Lemma high4 a : a < 256 → (N.shiftr a 4 <? 16) = true.
Proof. by_cases 256%nat. Qed.

Lemma high2 a : a < 256 → (N.shiftr a 6 <? 4) = true.
Proof. by_cases 256%nat. Qed.

Lemma sextet_4 a : a < 256 → (N.land a 63 <? 64) = true.
Proof. by_cases 256%nat. Qed.

Lemma sextet_2 x y :
  x < 4 → y < 16 →
  (let v := N.lor (N.shiftl x 4) y in
   (v <? 64) && (N.shiftr v 4 =? x) && (N.land v 15 =? y)) = true.
Proof.
  intros Hx. revert y.
  cut (forallb (λ y, let v := N.lor (N.shiftl x 4) y in
                     (v <? 64) && (N.shiftr v 4 =? x) && (N.land v 15 =? y))
         (below 16) = true).
  { intros Hall y Hy. by apply (below_all 16 _ Hall). }
  revert Hx. by_cases 4%nat.
Qed.

Lemma sextet_3 x y :
  x < 16 → y < 4 →
  (let v := N.lor (N.shiftl x 2) y in
   (v <? 64) && (N.shiftr v 2 =? x) && (N.land v 3 =? y)) = true.
Proof.
  intros Hx. revert y.
  cut (forallb (λ y, let v := N.lor (N.shiftl x 2) y in
                     (v <? 64) && (N.shiftr v 2 =? x) && (N.land v 3 =? y))
         (below 4) = true).
  { intros Hall y Hy. by apply (below_all 4 _ Hall). }
  revert Hx. by_cases 16%nat.
Qed.

Lemma byte_1 a : a < 256 →
  (N.lor (N.shiftl (N.shiftr a 2) 2) (N.land a 3) =? a) = true.
Proof. by_cases 256%nat. Qed.

Lemma byte_2 a : a < 256 →
  (N.lor (N.shiftl (N.shiftr a 4) 4) (N.land a 15) =? a) = true.
Proof. by_cases 256%nat. Qed.

Lemma byte_3 a : a < 256 →
  (N.lor (N.shiftl (N.shiftr a 6) 6) (N.land a 63) =? a) = true.
Proof. by_cases 256%nat. Qed.

Lemma a2b_char qp left pads v s :
  v < 64 →
  a2b_base64_go qp left pads (b64_char v :: s) =
    match qp with
    | 0%nat => a2b_base64_go 1 v 0 s
    | 1%nat =>
        out ← a2b_base64_go 2 (N.land v 0x0f) 0 s;
        mret (N.lor (N.shiftl left 2) (N.shiftr v 4) :: out)
    | 2%nat =>
        out ← a2b_base64_go 3 (N.land v 0x03) 0 s;
        mret (N.lor (N.shiftl left 4) (N.shiftr v 2) :: out)
    | _ =>
        out ← a2b_base64_go 0 0 0 s;
        mret (N.lor (N.shiftl left 6) v :: out)
    end.
Proof.
  intros Hv. destruct (b64_char_spec v Hv) as (Hval & Hpad & _).
  cbn [a2b_base64_go]. apply N.eqb_neq in Hpad. rewrite Hpad, Hval. done.
Qed.

Lemma a2b_pad qp left pads s :
  a2b_base64_go qp left pads (b64_pad :: s) =
    if (2 <=? qp)%nat && (4 <=? qp + S pads)%nat then Ok []
    else a2b_base64_go qp left (if (2 <=? qp)%nat then S pads else pads) s.
Proof. reflexivity. Qed.

Lemma sextet_2_spec x y :
  x < 4 → y < 16 →
  N.lor (N.shiftl x 4) y < 64 ∧
  N.shiftr (N.lor (N.shiftl x 4) y) 4 = x ∧
  N.land (N.lor (N.shiftl x 4) y) 15 = y.
Proof.
  intros Hx Hy. pose proof (sextet_2 x y Hx Hy) as Ht. cbv zeta in Ht.
  apply andb_true_iff in Ht as [Ht H3]. apply andb_true_iff in Ht as [H1 H2].
  apply N.ltb_lt in H1. apply N.eqb_eq in H2, H3. done.
Qed.

Lemma sextet_3_spec x y :
  x < 16 → y < 4 →
  N.lor (N.shiftl x 2) y < 64 ∧
  N.shiftr (N.lor (N.shiftl x 2) y) 2 = x ∧
  N.land (N.lor (N.shiftl x 2) y) 3 = y.
Proof.
  intros Hx Hy. pose proof (sextet_3 x y Hx Hy) as Ht. cbv zeta in Ht.
  apply andb_true_iff in Ht as [Ht H3]. apply andb_true_iff in Ht as [H1 H2].
  apply N.ltb_lt in H1. apply N.eqb_eq in H2, H3. done.
Qed.

Lemma list_ind_3 {A} (P : list A → Prop) :
  P [] → (∀ a, P [a]) → (∀ a b, P [a; b]) →
  (∀ a b c l, P l → P (a :: b :: c :: l)) →
  ∀ l, P l.
Proof.
  intros H0 H1 H2 H3 l.
  cut (P l ∧ (∀ a, P (a :: l)) ∧ (∀ a b, P (a :: b :: l))); [tauto|].
  induction l as [|x l (IH0 & IH1 & IH2)]; [by split_and!|].
  split_and!; [apply IH1|intros a; apply IH2|intros a b; by apply H3].
Qed.

(** Decoding what [b64encode] produced gives the bytes back. *)
Lemma b64_roundtrip (bs : bytes) :
  Forall (λ b, b < 256) bs → a2b_base64 (b64encode bs) = Ok bs.
Proof.
  unfold a2b_base64. induction bs as [|a|a b|a b c rest IH] using list_ind_3;
    intros Hb.
  - done.
  - apply Forall_cons in Hb as [Ha _].
    pose proof (sextet_1 a Ha) as H1%N.ltb_lt.
    pose proof (low2 a Ha) as Hl%N.ltb_lt.
    destruct (sextet_2_spec (N.land a 3) 0 Hl ltac:(lia)) as (H2 & H2h & _).
    rewrite N.lor_0_r in H2, H2h.
    cbn [b64encode]. rewrite (a2b_char 0) by done. rewrite (a2b_char 1) by done.
    rewrite !a2b_pad. cbn [Nat.leb Nat.add andb]. simpl.
    rewrite H2h. by rewrite (proj1 (N.eqb_eq _ _) (byte_1 a Ha)).
  - apply Forall_cons in Hb as [Ha Hb]. apply Forall_cons in Hb as [Hb _].
    pose proof (sextet_1 a Ha) as H1%N.ltb_lt.
    pose proof (low2 a Ha) as Hl%N.ltb_lt.
    pose proof (high4 b Hb) as Hh%N.ltb_lt.
    pose proof (low4 b Hb) as Hl4%N.ltb_lt.
    destruct (sextet_2_spec _ _ Hl Hh) as (H2 & H2h & H2l).
    destruct (sextet_3_spec (N.land b 15) 0 Hl4 ltac:(lia)) as (H3 & H3h & _).
    rewrite N.lor_0_r in H3, H3h.
    cbn [b64encode]. rewrite (a2b_char 0) by done. rewrite (a2b_char 1) by done.
    rewrite (a2b_char 2) by done. rewrite a2b_pad. simpl.
    rewrite H2h, H2l, H3h.
    rewrite (proj1 (N.eqb_eq _ _) (byte_1 a Ha)).
    by rewrite (proj1 (N.eqb_eq _ _) (byte_2 b Hb)).
  - apply Forall_cons in Hb as [Ha Hb]. apply Forall_cons in Hb as [Hb Hc].
    apply Forall_cons in Hc as [Hc Hrest].
    pose proof (sextet_1 a Ha) as H1%N.ltb_lt.
    pose proof (low2 a Ha) as Hl%N.ltb_lt.
    pose proof (high4 b Hb) as Hh%N.ltb_lt.
    pose proof (low4 b Hb) as Hl4%N.ltb_lt.
    pose proof (high2 c Hc) as Hh2%N.ltb_lt.
    pose proof (sextet_4 c Hc) as H4%N.ltb_lt.
    destruct (sextet_2_spec _ _ Hl Hh) as (H2 & H2h & H2l).
    destruct (sextet_3_spec _ _ Hl4 Hh2) as (H3 & H3h & H3l).
    cbn [b64encode app]. rewrite (a2b_char 0) by done.
    rewrite (a2b_char 1) by done. rewrite (a2b_char 2) by done.
    rewrite (a2b_char 3) by done. rewrite (IH Hrest). simpl.
    rewrite H2h, H2l, H3h, H3l.
    rewrite (proj1 (N.eqb_eq _ _) (byte_1 a Ha)).
    rewrite (proj1 (N.eqb_eq _ _) (byte_2 b Hb)).
    by rewrite (proj1 (N.eqb_eq _ _) (byte_3 c Hc)).
Qed.

(** ** Encodings *)

Lemma b64_char_ascii v : b64_char v < 128.
Proof.
  unfold b64_char.
  repeat match goal with
         | |- context [if ?x <? ?y then _ else _] => destruct (N.ltb_spec x y)
         | |- context [if ?x =? ?y then _ else _] => destruct (N.eqb_spec x y)
         end; lia.
Qed.

Lemma b64encode_ascii bs : is_ascii (b64encode bs) = true.
Proof.
  unfold is_ascii.
  induction bs as [|a|a b|a b c rest IH] using list_ind_3; [done|..];
    cbn [b64encode app forallb];
    repeat match goal with
           | |- context [b64_char ?v <? 128] =>
               rewrite (proj2 (N.ltb_lt _ _) (b64_char_ascii v))
           end; done.
Qed.

Lemma encode_utf8_ascii s : is_ascii s = true → encode_utf8 s = Ok s.
Proof.
  unfold is_ascii. induction s as [|c s IH]; [done|]. simpl.
  intros [Hc Hs]%andb_true_iff. rewrite (IH Hs).
  unfold utf8_char. apply N.ltb_lt in Hc.
  by rewrite (proj2 (N.ltb_lt c 128) Hc).
Qed.

Lemma lor_lt_256 a b : a < 256 → b < 256 → N.lor a b < 256.
Proof.
  intros Ha Hb. destruct (N.eq_dec (N.lor a b) 0) as [->|Hne]; [lia|].
  change 256 with (2 ^ 8). apply N.log2_lt_pow2; [lia|].
  rewrite N.log2_lor.
  destruct (N.eq_dec a 0) as [->|Ha0]; destruct (N.eq_dec b 0) as [->|Hb0];
    try (exfalso; apply Hne; reflexivity).
  - rewrite N.max_r by apply N.le_0_l. apply N.log2_lt_pow2; [lia|done].
  - rewrite N.max_l by apply N.le_0_l. apply N.log2_lt_pow2; [lia|done].
  - apply N.max_lub_lt; apply N.log2_lt_pow2; (lia || done).
Qed.

Lemma continuation_byte x : N.lor 0x80 (N.land x 0x3F) < 256.
Proof.
  apply lor_lt_256; [lia|].
  change 0x3F with (N.ones 6). rewrite N.land_ones.
  pose proof (N.mod_upper_bound x (2 ^ 6) ltac:(done)). simpl in *. lia.
Qed.

Lemma shiftr_lt c k m : c < m * 2 ^ k → N.shiftr c k < m.
Proof.
  intros Hc. rewrite N.shiftr_div_pow2.
  apply N.Div0.div_lt_upper_bound. lia.
Qed.

(** UTF-8 produces bytes. *)
Lemma utf8_char_bytes c bs :
  utf8_char c = Ok bs → Forall (λ b, b < 256) bs.
Proof.
  unfold utf8_char.
  destruct (N.ltb_spec c 0x80); [intros [= <-]; repeat constructor; lia|].
  destruct (N.ltb_spec c 0x800).
  { intros [= <-]. repeat constructor; [|apply continuation_byte].
    apply lor_lt_256; [lia|].
    eapply N.lt_le_trans; [apply (shiftr_lt c 6 64)|]; lia. }
  destruct ((0xD800 <=? c) && (c <=? 0xDFFF)); [done|].
  destruct (N.ltb_spec c 0x10000).
  { intros [= <-]. repeat constructor; try apply continuation_byte.
    apply lor_lt_256; [lia|].
    eapply N.lt_le_trans; [apply (shiftr_lt c 12 32)|]; lia. }
  destruct (N.ltb_spec c 0x110000); [|done].
  intros [= <-]. repeat constructor; try apply continuation_byte.
  apply lor_lt_256; [lia|].
  eapply N.lt_le_trans; [apply (shiftr_lt c 18 16)|]; lia.
Qed.

Lemma encode_utf8_bytes s bs :
  encode_utf8 s = Ok bs → Forall (λ b, b < 256) bs.
Proof.
  revert bs. induction s as [|c s IH]; intros bs; simpl.
  - intros [= <-]. constructor.
  - destruct (utf8_char c) as [b|] eqn:Hc; [|done]. simpl.
    destruct (encode_utf8 s) as [bs'|]; [|done]. simpl.
    intros [= <-]. apply Forall_app. split; [by eapply utf8_char_bytes|by apply IH].
Qed.

#[local] Arguments path_join : simpl never.
#[local] Arguments lit : simpl never.

(** ** The effects of [main] *)

Lemma io_bind_ok {A B} (m : io A) (f : A → io B) (out : outcome) (b : B) :
  m ≫= f = (out, Ok b) →
  ∃ o1 a o2, m = (o1, Ok a) ∧ f a = (o2, Ok b) ∧ out = and_then o1 o2.
Proof.
  destruct m as [o1 [a|e]]; unfold mbind, io_bind; cbn; [|by intros [=]].
  destruct (f a) as [o2 r] eqn:Hf. cbn. intros [= <- ->]. by exists o1, a, o2.
Qed.

Lemma io_bind_pair {A B} (o : outcome) (a : A) (f : A → io B) :
  (o, Ok a) ≫= f = (and_then o (f a).1, (f a).2).
Proof. reflexivity. Qed.

Lemma io_bind_raise {A B} (o : outcome) (e : exn) (f : A → io B) :
  (o, @Raise A e) ≫= f = (o, Raise e).
Proof. reflexivity. Qed.

Lemma and_then_records (d1 d2 : list str) (f1 f2 : list (str * bytes))
    (s1 s2 : list message) :
  and_then {| dirs := d1; files := f1; stdout := s1 |}
           {| dirs := d2; files := f2; stdout := s2 |} =
  {| dirs := d1 ++ d2; files := f1 ++ f2; stdout := s1 ++ s2 |}.
Proof. reflexivity. Qed.

Lemma makedirs_cases (w : world) (d : str) :
  makedirs w d = ({| dirs := [d]; files := []; stdout := [] |}, Ok ()) ∨
  ∃ e, makedirs w d = (nothing, Raise e).
Proof.
  unfold makedirs. destruct d as [|c d]; [right; by eexists|].
  destruct (makedirs_error w (c :: d)); [right; by eexists|by left].
Qed.

(** The directories are created in the order of the list, up to the
    first that cannot be; nothing is written or printed. *)
Lemma for_each_makedirs (w : world) (l : list str) :
  (for_each (makedirs w) l =
     ({| dirs := l; files := []; stdout := [] |}, Ok ())) ∨
  ∃ created e,
    for_each (makedirs w) l =
      ({| dirs := created; files := []; stdout := [] |}, Raise e).
Proof.
  induction l as [|d l IH]; [by left|]. cbn [for_each].
  destruct (makedirs_cases w d) as [-> | [e ->]].
  - rewrite io_bind_pair.
    destruct IH as [-> | (created & e & ->)]; [by left|].
    right. by exists (d :: created), e.
  - rewrite io_bind_raise. right. by exists [], e.
Qed.

Section MainFacts.
Context `{Interp}.

Lemma setup_directories_cases (w : world) (cfg : settings) :
  (setup_directories w cfg =
     ({| dirs := dirs_to_create cfg; files := []; stdout := [] |}, Ok ())) ∨
  ∃ created e,
    setup_directories w cfg =
      ({| dirs := created; files := []; stdout := [] |}, Raise e).
Proof. apply for_each_makedirs. Qed.

Lemma write_text_inv (w : world) (path : str) (text : res str) (o : outcome) :
  write_text w path text = (o, Ok ()) →
  ∃ t content,
    text = Ok t ∧ writable w path = true ∧ encode_utf8 t = Ok content ∧
    o = {| dirs := []; files := [(path, content)]; stdout := [] |}.
Proof.
  unfold write_text. destruct (writable w path); [|done].
  destruct text as [t|e]; [|done]. cbn.
  destruct (encode_utf8 t) as [content|] eqn:He; [|done].
  intros [= <-]. by exists t, content.
Qed.

Lemma write_groups_cons (w : world) (dir name : str) (configs : list str)
    (d : groups) :
  write_groups w dir ((name, configs) :: d) =
    (write_text w (path_join dir (name ++ lit ".txt"))
       (Ok (join [chr_newline] configs));;
     write_groups w dir d).
Proof. reflexivity. Qed.

Lemma write_groups_inv (w : world) (dir : str) (d : groups) (o : outcome) :
  write_groups w dir d = (o, Ok ()) →
  ∃ fs, o = {| dirs := []; files := fs; stdout := [] |} ∧
        Forall2 (group_file w dir) d fs.
Proof.
  revert o. induction d as [|[name configs] d IH]; intros o.
  - intros [= <-]. exists []. split; [done|constructor].
  - rewrite write_groups_cons.
    intros (o1 & [] & o2 & Hf & Hrest & ->)%io_bind_ok.
    apply write_text_inv in Hf as (t & content & [= <-] & Hw & He & ->).
    apply IH in Hrest as (fs & -> & Hfs).
    exists ((path_join dir (name ++ lit ".txt"), content) :: fs).
    split; [done|]. constructor; [|done]. by split_and!.
Qed.

(** What a normal end of [main] means when something was reachable. *)
Lemma main_inv (w : world) (cfg : settings) (out : outcome) :
  main w cfg = (out, Ok ()) →
  run w (get_sources w cfg) ≠ [] →
  ∃ st region_files protocol_files plain,
    label_all w cfg (run w (get_sources w cfg)) = Ok st ∧
    Forall2 (group_file w (path_join (base_dir cfg) (lit "regions")))
      (by_country st) region_files ∧
    Forall2 (group_file w
               (path_join (path_join (base_dir cfg) (lit "filtered")) (lit "subs")))
      (by_protocol st) protocol_files ∧
    encode_utf8 (join [chr_newline] (config <$> labelled st)) = Ok plain ∧
    out = {| dirs := dirs_to_create cfg;
             files := region_files ++ protocol_files ++
                      [(v2ray_path cfg, plain);
                       (base64_path cfg, b64encode plain)];
             stdout := [MsgReady (length (get_sources w cfg)); MsgNaming;
                        MsgSaving; MsgSaved; MsgFinished] |}.
Proof.
  unfold main. intros Hm Hrun.
  destruct (run w (get_sources w cfg)) as [|r rs] eqn:Hr; [done|].
  apply io_bind_ok in Hm as (o1 & [] & ? & Hs & Hm & ->).
  apply io_bind_ok in Hm as (o2 & [] & ? & [= <-] & Hm & ->).
  apply io_bind_ok in Hm as (? & [] & o9 & Hbody & [= <-] & ->).
  apply io_bind_ok in Hbody as (o0 & [] & ? & Hopen & Hbody & ->).
  apply io_bind_ok in Hbody as (o3 & [] & ? & [= <-] & Hbody & ->).
  apply io_bind_ok in Hbody as (o4 & st & ? & [= <- Hl] & Hbody & ->).
  apply io_bind_ok in Hbody as (o5 & [] & ? & Hrf & Hbody & ->).
  apply io_bind_ok in Hbody as (o6 & [] & ? & Hpf & Hbody & ->).
  apply io_bind_ok in Hbody as (o7 & [] & ? & [= <-] & Hbody & ->).
  apply io_bind_ok in Hbody as (o8 & [] & ? & Hplain & Hbody & ->).
  apply io_bind_ok in Hbody as (o10 & [] & ? & Henc & [= <-] & ->).
  destruct (setup_directories_cases w cfg) as [Hs' | (created & e & Hs')];
    rewrite Hs' in Hs; [|done]. injection Hs as <-.
  unfold open_geo_db in Hopen.
  destruct (geo_db_error w); [done|]. injection Hopen as <-.
  apply write_groups_inv in Hrf as (rf & -> & Hrf).
  apply write_groups_inv in Hpf as (pf & -> & Hpf).
  apply write_text_inv in Hplain as (t & plain & [= <-] & _ & Hplain & ->).
  apply write_text_inv in Henc as (t & enc & Ht & _ & Henc & ->).
  rewrite Hplain in Ht. injection Ht as <-.
  rewrite (encode_utf8_ascii _ (b64encode_ascii plain)) in Henc.
  injection Henc as <-.
  exists st, rf, pf, plain. split_and!; [done..|].
  unfold nothing. rewrite !and_then_records. cbn [app].
  by rewrite !app_nil_r.
Qed.
End MainFacts.

(** ** Nothing reachable *)

(** C8: when no descriptor is reachable the scheduler returns the empty
    sequence and [main] writes no file.  Once the directories are set up
    it ends normally, having printed the nothing-found message before its
    closing line; a failure of the directory set-up ends [main] with that
    exception before anything is printed. *)
Theorem C8_nothing_reachable `{Interp} (w : world) (cfg : settings) :
  (∀ c, c ∈ get_sources w cfg → test_single w c = None) →
  run w (get_sources w cfg) = [] ∧
  files (main w cfg).1 = [] ∧
  ((setup_directories w cfg).2 = Ok () →
   main w cfg =
     ({| dirs := dirs_to_create cfg;
         files := [];
         stdout := [MsgReady (length (get_sources w cfg));
                    MsgNothingFound; MsgFinished] |}, Ok ())) ∧
  (∀ e, (setup_directories w cfg).2 = Raise e →
        (main w cfg).2 = Raise e ∧ stdout (main w cfg).1 = []).
Proof.
  intros Hnone. apply run_nil in Hnone.
  split; [done|]. unfold main. rewrite Hnone.
  destruct (setup_directories_cases w cfg) as [-> | (created & e & ->)].
  - split_and!; [done| |done]. intros _.
    unfold print, mbind, io_bind, and_then. cbn [dirs files stdout fst snd app].
    by rewrite !app_nil_r.
  - rewrite io_bind_raise. split_and!; [done..|]. by intros ? [= <-].
Qed.

(** The theorem in the world where every connection is refused: the five
    directories are created and three lines printed. *)
Lemma C8_nothing_reachable_witness :
  run (H := ascii_interp) dead_world
    (get_sources (H := ascii_interp) dead_world demo_settings) = [] ∧
  main (H := ascii_interp) dead_world demo_settings =
    ({| dirs := [lit "subscriptions"; lit "subscriptions/v2ray";
                 lit "subscriptions/base64"; lit "subscriptions/filtered/subs";
                 lit "subscriptions/regions"];
        files := [];
        stdout := [MsgReady 4; MsgNothingFound; MsgFinished] |}, Ok ()).
Proof.
  destruct (C8_nothing_reachable (H := ascii_interp) dead_world demo_settings)
    as (Hrun & _ & Hmain & _).
  - intros c Hc. unfold test_single, test_single_body.
    destruct (parse_target c) as [[[h p]|]|]; reflexivity.
  - split; [exact Hrun|]. rewrite Hmain by reflexivity. reflexivity.
Defined.

(** ** The aggregate files *)

(** C7: when [main] ends normally with something reachable, the last two
    files it wrote are [v2ray/all_sub.txt], holding the UTF-8 bytes of the
    newline-joined rewritten descriptors in latency order, and
    [base64/all_sub.txt]; Base64-decoding the content of the latter gives
    the content of the former, byte for byte. *)
Theorem C7_transport_round_trip `{Interp} (w : world) (cfg : settings)
    (out : outcome) :
  main w cfg = (out, Ok ()) →
  run w (get_sources w cfg) ≠ [] →
  ∃ group_files st plain encoded,
    label_all w cfg (run w (get_sources w cfg)) = Ok st ∧
    files out =
      group_files ++ [(v2ray_path cfg, plain); (base64_path cfg, encoded)] ∧
    encode_utf8 (join [chr_newline] (config <$> labelled st)) = Ok plain ∧
    b64decode encoded = Ok plain.
Proof.
  intros Hm Hrun.
  destruct (main_inv _ _ _ Hm Hrun)
    as (st & rf & pf & plain & Hl & _ & _ & Hplain & ->).
  exists (rf ++ pf), st, plain, (b64encode plain). cbn [files].
  split_and!; try done.
  - by rewrite <- app_assoc.
  - unfold b64decode. rewrite b64encode_ascii.
    apply b64_roundtrip. by eapply encode_utf8_bytes.
Qed.

(** * Further properties of the code *)

(** ** Source aggregation *)

Section SourcesFacts.
Context `{Interp}.

Lemma elem_of_collect_from (w : world) (sources : list str) (acc : gset str)
    (line : str) :
  line ∈ foldl (λ all_configs source_path,
                  match http_get w (source_url source_path) with
                  | Some content => all_configs ∪ list_to_set (source_lines content)
                  | None => all_configs
                  end) acc sources ↔
  line ∈ acc ∨
  ∃ source_path content,
    source_path ∈ sources ∧
    http_get w (source_url source_path) = Some content ∧
    line ∈ source_lines content.
Proof.
  revert acc. induction sources as [|s sources IH]; intros acc; simpl.
  - split; [by left|]. intros [?|(? & ? & Hin & _)]; [done|]. inversion Hin.
  - rewrite IH. split.
    + intros [Hacc|(s' & c & Hin & Hget & Hl)].
      * destruct (http_get w (source_url s)) as [content|] eqn:Hget; [|by left].
        apply elem_of_union in Hacc as [?|Hl]; [by left|].
        right. exists s, content. rewrite elem_of_list_to_set in Hl.
        split_and!; [left|done..].
      * right. exists s', c. split_and!; [by right|done..].
    + intros [Hacc|(s' & c & Hin & Hget & Hl)].
      * left. destruct (http_get w (source_url s)); [|done].
        apply elem_of_union. by left.
      * apply elem_of_cons in Hin as [->|Hin].
        -- left. rewrite Hget. apply elem_of_union. right.
           by rewrite elem_of_list_to_set.
        -- right. exists s', c. done.
Qed.

Lemma elem_of_collect (w : world) (sources : list str) (line : str) :
  line ∈ collect w sources ↔
  ∃ source_path content,
    source_path ∈ sources ∧
    http_get w (source_url source_path) = Some content ∧
    line ∈ source_lines content.
Proof.
  unfold collect. rewrite elem_of_collect_from. split; [|by right].
  intros [Hin|?]; [|done]. by apply not_elem_of_empty in Hin.
Qed.

Lemma NoDup_get_sources (w : world) (cfg : settings) :
  NoDup (get_sources w cfg).
Proof.
  unfold get_sources, set_iter. apply NoDup_filter.
  rewrite sorted_perm. apply NoDup_elements.
Qed.

Lemma elem_of_get_sources (w : world) (cfg : settings) (line : str) :
  line ∈ get_sources w cfg ↔
  line ≠ [] ∧ line ∈ collect w (sources_files cfg).
Proof.
  unfold get_sources, set_iter.
  by rewrite list_elem_of_filter, elem_of_sorted, elem_of_elements.
Qed.
End SourcesFacts.

(** X1: [get_sources] returns each descriptor once. *)
Theorem get_sources_NoDup `{Interp} (w : world) (cfg : settings) :
  NoDup (get_sources w cfg).
Proof. apply NoDup_get_sources. Qed.

(** X2: a string is returned by [get_sources] exactly when it is a
    non-empty line of the body of a source that could be fetched; a source
    whose fetch fails adds nothing and does not stop the others. *)
Theorem get_sources_lines `{Interp} (w : world) (cfg : settings) (line : str) :
  line ∈ get_sources w cfg ↔
  line ≠ [] ∧
  ∃ source_path content,
    source_path ∈ sources_files cfg ∧
    http_get w (source_url source_path) = Some content ∧
    line ∈ source_lines content.
Proof. by rewrite elem_of_get_sources, elem_of_collect. Qed.

(** X3: which descriptors [get_sources] returns depends on which sources
    are listed, not on their order nor on how often each is listed: the
    two lists hold the same descriptors, each once.  Their order is that
    of a set and may change with the order of the insertions. *)
Theorem get_sources_order_independent `{Interp} (w : world) (cfg : settings)
    (sources : list str) :
  (∀ s, s ∈ sources ↔ s ∈ sources_files cfg) →
  get_sources w (with_sources cfg sources) ≡ₚ get_sources w cfg.
Proof.
  intros Hsame. apply NoDup_Permutation; [apply NoDup_get_sources..|].
  intros line. rewrite !elem_of_get_sources, !elem_of_collect. simpl.
  by setoid_rewrite Hsame.
Qed.

(** The theorem for two sources in a world where a set is iterated in the
    order of first insertion: listed the other way round, with one of
    them twice, they give the same two descriptors in the other order. *)
Lemma get_sources_order_independent_witness :
  get_sources (H := ascii_interp) two_source_world
    (with_sources two_source_settings [lit "r/b"; lit "r/a"; lit "r/b"]) ≡ₚ
  get_sources (H := ascii_interp) two_source_world two_source_settings ∧
  get_sources (H := ascii_interp) two_source_world two_source_settings =
    [lit "ss://a:1"; lit "ss://b:2"] ∧
  get_sources (H := ascii_interp) two_source_world
    (with_sources two_source_settings [lit "r/b"; lit "r/a"; lit "r/b"]) =
    [lit "ss://b:2"; lit "ss://a:1"].
Proof.
  split; [|split; vm_compute; reflexivity].
  apply (get_sources_order_independent (H := ascii_interp)).
  intros s. simpl. rewrite !elem_of_cons. tauto.
Defined.

Lemma one_line_rev (cur : str) : one_line cur → one_line (rev cur).
Proof.
  unfold one_line. rewrite !Forall_forall. intros Hc c Hin. apply Hc.
  rewrite list_elem_of_In in *. by apply in_rev.
Qed.

Lemma skip_lf_cases (s : str) :
  skip_lf s = s ∨ s = 10 :: skip_lf s.
Proof.
  destruct s as [|[|p] s]; [by left..|].
  do 4 (destruct p as [p|p|]; try by left). by right.
Qed.

Lemma splitlines_go_cons (cur : str) (c : char) (s : str) :
  splitlines_go cur (c :: s) =
    if c =? 13 then rev cur :: splitlines_go [] (skip_lf s)
    else if is_linebreak c then rev cur :: splitlines_go [] s
    else splitlines_go (c :: cur) s.
Proof.
  simpl. destruct (c =? 13); [|done].
  destruct s as [|[|p] s]; [done..|].
  do 4 (destruct p as [p|p|]; try done).
Qed.

Lemma splitlines_go_one_line (cur s : str) :
  one_line cur → Forall one_line (splitlines_go cur s).
Proof.
  revert cur. induction s as [s IH] using (induction_ltof1 _ (@length char)).
  unfold ltof in IH. intros cur Hcur. destruct s as [|c s].
  - simpl. destruct cur; [constructor|]. repeat constructor. by apply one_line_rev.
  - rewrite splitlines_go_cons.
    destruct (c =? 13); [|destruct (is_linebreak c) eqn:Hlb].
    + constructor; [by apply one_line_rev|].
      apply IH; [|constructor].
      destruct (skip_lf_cases s) as [->|Hs]; [simpl; lia|].
      rewrite Hs at 2. simpl. lia.
    + constructor; [by apply one_line_rev|].
      apply IH; [simpl; lia|constructor].
    + apply IH; [simpl; lia|]. by constructor.
Qed.

(** Every line of [splitlines] is free of line-break characters. *)
Lemma splitlines_one_line (s : str) : Forall one_line (splitlines s).
Proof. apply splitlines_go_one_line. constructor. Qed.

Lemma source_lines_one_line `{Interp} (content : str) :
  Forall one_line (source_lines content).
Proof.
  unfold source_lines. destruct (b64decode _); apply splitlines_one_line.
Qed.

Lemma one_line_get_sources `{Interp} (w : world) (cfg : settings) (line : str) :
  line ∈ get_sources w cfg → one_line line.
Proof.
  rewrite elem_of_get_sources, elem_of_collect.
  intros (_ & s & content & _ & _ & Hl).
  by eapply Forall_forall in Hl; [|apply source_lines_one_line].
Qed.

(** X4: no descriptor returned by [get_sources] contains a line break, so
    each one stays on one line of the files [main] writes. *)
Theorem get_sources_one_line `{Interp} (w : world) (cfg : settings) :
  Forall one_line (get_sources w cfg).
Proof. apply Forall_forall. intros line. apply one_line_get_sources. Qed.

(** *** Bodies sent in Base64 *)

Lemma a2b_tail (pads : nat) (tail : bytes) :
  Forall (λ c, b64_value c = None) tail →
  a2b_base64_go 0 0 pads tail = Ok [].
Proof.
  induction 1 as [|c tail Hc _ IH]; [done|].
  cbn [a2b_base64_go]. destruct (c =? b64_pad); [done|]. by rewrite Hc.
Qed.

(** Decoding ignores what follows the encoded bytes when it holds no
    character of the alphabet (a final newline, more padding). *)
Lemma b64_roundtrip_tail (bs tail : bytes) :
  Forall (λ b, b < 256) bs →
  Forall (λ c, b64_value c = None) tail →
  a2b_base64 (b64encode bs ++ tail) = Ok bs.
Proof.
  unfold a2b_base64. intros Hb Ht.
  induction bs as [|a|a b|a b c rest IH] using list_ind_3.
  - by apply a2b_tail.
  - apply Forall_cons in Hb as [Ha _].
    pose proof (sextet_1 a Ha) as H1%N.ltb_lt.
    pose proof (low2 a Ha) as Hl%N.ltb_lt.
    destruct (sextet_2_spec (N.land a 3) 0 Hl ltac:(lia)) as (H2 & H2h & _).
    rewrite N.lor_0_r in H2, H2h.
    cbn [b64encode app]. rewrite (a2b_char 0) by done.
    rewrite (a2b_char 1) by done.
    rewrite !a2b_pad. cbn [Nat.leb Nat.add andb]. simpl.
    rewrite H2h. by rewrite (proj1 (N.eqb_eq _ _) (byte_1 a Ha)).
  - apply Forall_cons in Hb as [Ha Hb]. apply Forall_cons in Hb as [Hb _].
    pose proof (sextet_1 a Ha) as H1%N.ltb_lt.
    pose proof (low2 a Ha) as Hl%N.ltb_lt.
    pose proof (high4 b Hb) as Hh%N.ltb_lt.
    pose proof (low4 b Hb) as Hl4%N.ltb_lt.
    destruct (sextet_2_spec _ _ Hl Hh) as (H2 & H2h & H2l).
    destruct (sextet_3_spec (N.land b 15) 0 Hl4 ltac:(lia)) as (H3 & H3h & _).
    rewrite N.lor_0_r in H3, H3h.
    cbn [b64encode app]. rewrite (a2b_char 0) by done.
    rewrite (a2b_char 1) by done. rewrite (a2b_char 2) by done.
    rewrite a2b_pad. simpl.
    rewrite H2h, H2l, H3h.
    rewrite (proj1 (N.eqb_eq _ _) (byte_1 a Ha)).
    by rewrite (proj1 (N.eqb_eq _ _) (byte_2 b Hb)).
  - apply Forall_cons in Hb as [Ha Hb]. apply Forall_cons in Hb as [Hb Hc].
    apply Forall_cons in Hc as [Hc Hrest].
    pose proof (sextet_1 a Ha) as H1%N.ltb_lt.
    pose proof (low2 a Ha) as Hl%N.ltb_lt.
    pose proof (high4 b Hb) as Hh%N.ltb_lt.
    pose proof (low4 b Hb) as Hl4%N.ltb_lt.
    pose proof (high2 c Hc) as Hh2%N.ltb_lt.
    pose proof (sextet_4 c Hc) as H4%N.ltb_lt.
    destruct (sextet_2_spec _ _ Hl Hh) as (H2 & H2h & H2l).
    destruct (sextet_3_spec _ _ Hl4 Hh2) as (H3 & H3h & H3l).
    cbn [b64encode app]. rewrite (a2b_char 0) by done.
    rewrite (a2b_char 1) by done. rewrite (a2b_char 2) by done.
    rewrite (a2b_char 3) by done. rewrite (IH Hrest). simpl.
    rewrite H2h, H2l, H3h, H3l.
    rewrite (proj1 (N.eqb_eq _ _) (byte_1 a Ha)).
    rewrite (proj1 (N.eqb_eq _ _) (byte_2 b Hb)).
    by rewrite (proj1 (N.eqb_eq _ _) (byte_3 c Hc)).
Qed.

Lemma is_ascii_app (s t : str) : is_ascii (s ++ t) = is_ascii s && is_ascii t.
Proof. apply forallb_app. Qed.

Lemma is_ascii_pad (n : nat) : is_ascii (replicate n b64_pad) = true.
Proof. induction n; [done|]. simpl. done. Qed.

(** X5: a body that is the Base64 encoding of some bytes, possibly
    followed by ASCII characters outside the Base64 alphabet (a final
    newline), yields the lines of the decoded text. *)
Theorem source_lines_base64 `{Interp} (bs tail : bytes) :
  Forall (λ b, b < 256) bs →
  Forall (λ c, c < 128 ∧ b64_value c = None) tail →
  source_lines (b64encode bs ++ tail) = splitlines (decode_utf8_ignore bs).
Proof.
  intros Hb Ht. unfold source_lines.
  assert (∀ n, b64decode ((b64encode bs ++ tail) ++ replicate n b64_pad) = Ok bs)
    as Hdec.
  { intros n. unfold b64decode.
    rewrite !is_ascii_app, b64encode_ascii, is_ascii_pad, andb_true_r. simpl.
    assert (is_ascii tail = true) as ->.
    { apply forallb_forall. intros c Hc%list_elem_of_In.
      eapply Forall_forall in Ht as [Hlt _]; [|done]. by apply N.ltb_lt. }
    rewrite <- app_assoc. apply b64_roundtrip_tail; [done|].
    apply Forall_app. split.
    - eapply Forall_impl; [done|]. by intros c [_ ?].
    - apply Forall_forall. intros c Hc%elem_of_replicate. by destruct Hc as [-> _]. }
  destruct (_ =? 0)%nat.
  - specialize (Hdec 0%nat). rewrite app_nil_r in Hdec. by rewrite Hdec.
  - by rewrite Hdec.
Qed.

(** The theorem for the body of the concrete run followed by a newline. *)
Lemma source_lines_base64_witness :
  source_lines (H := ascii_interp) (b64encode demo_body ++ [chr_newline]) =
  splitlines (decode_utf8_ignore (Interp := ascii_interp) demo_body).
Proof.
  apply (source_lines_base64 (H := ascii_interp) demo_body [chr_newline]).
  - apply Forall_forall. intros b Hb.
    apply (Forall_forall (λ b, b < 256) demo_body); [|done].
    vm_compute. repeat constructor.
  - repeat constructor.
Defined.

(** X6: a body with a character outside ASCII is never decoded: its lines
    are taken as they are, but from the text with the [=] that were
    appended to bring its length to a multiple of four. *)
Theorem source_lines_not_ascii `{Interp} (content : str) :
  is_ascii content = false →
  source_lines content =
    splitlines (content ++ replicate ((4 - length content mod 4) mod 4) b64_pad).
Proof.
  intros Hna. unfold source_lines.
  destruct (Nat.eqb_spec (length content mod 4) 0) as [E|E].
  - rewrite E. simpl. rewrite app_nil_r. unfold b64decode. by rewrite Hna.
  - pose proof (Nat.mod_upper_bound (length content) 4 ltac:(lia)).
    rewrite (Nat.mod_small (4 - _)) by lia.
    unfold b64decode. by rewrite is_ascii_app, Hna.
Qed.

(** The theorem for a one-letter body: three [=] are appended to it. *)
Lemma source_lines_not_ascii_witness :
  source_lines (H := ascii_interp) [233] =
    splitlines ([233] ++ replicate ((4 - length [233] mod 4) mod 4) b64_pad).
Proof.
  apply (source_lines_not_ascii (H := ascii_interp) [233]). reflexivity.
Defined.

(** ** Probing *)

Section ProbingFacts.
Context `{Interp}.

(** A successful probe carries the descriptor it was given and the host
    the parser found in it. *)
Lemma test_single_inv (w : world) (c : str) (r : probe) :
  test_single w c = Some r →
  config r = c ∧ ∃ p, parse c = Some (host r, p) ∧ is_Some (connect w c (host r) p).
Proof.
  unfold test_single, test_single_body, parse.
  destruct (parse_target c) as [[[h p]|]|]; simpl; try done.
  destruct (connect w c h p) as [[t0 t1]|] eqn:Hc; [|done].
  destruct (float_to_int _) as [z|]; simpl; [|done].
  intros [= <-]. simpl. split; [done|]. exists p. by rewrite Hc.
Qed.

Lemma omap_test_single_configs (w : world) (l : list str) :
  config <$> omap (test_single w) l `sublist_of` l.
Proof.
  induction l as [|c l IH]; simpl; [done|].
  destruct (test_single w c) as [r|] eqn:Ht; simpl.
  - apply test_single_inv in Ht as [-> _]. by constructor.
  - by constructor.
Qed.

Lemma NoDup_fmap_eq {A B} (f : A → B) (l : list A) (x y : A) :
  NoDup (f <$> l) → x ∈ l → y ∈ l → f x = f y → x = y.
Proof.
  induction l as [|a l IH]; intros Hnd Hx Hy Hf; [inversion Hx|].
  rewrite fmap_cons in Hnd. apply NoDup_cons in Hnd as [Ha Hnd].
  apply elem_of_cons in Hx as [->|Hx]; apply elem_of_cons in Hy as [->|Hy];
    try done.
  - exfalso. apply Ha. rewrite Hf. by apply list_elem_of_fmap_2.
  - exfalso. apply Ha. rewrite <- Hf. by apply list_elem_of_fmap_2.
  - by apply IH.
Qed.
End ProbingFacts.

#[local] Instance key_le_trans {A} (key : A → Z) : Transitive (key_le key).
Proof. intros x y z. unfold key_le. lia. Qed.

(** X7: the scheduler returns every descriptor at most once when it is
    given each once, and each result is the successful probe of a
    descriptor it was given. *)
Theorem run_distinct `{Interp} (w : world) (configs : list str) :
  NoDup configs →
  NoDup (config <$> run w configs) ∧
  Forall (λ r, config r ∈ configs ∧ test_single w (config r) = Some r)
    (run w configs).
Proof.
  intros Hnd. split.
  - rewrite run_perm.
    eapply sublist_NoDup; [|apply omap_test_single_configs].
    by rewrite as_completed_perm.
  - apply Forall_forall. intros r (c & Hc & Ht)%elem_of_run.
    pose proof (test_single_inv _ _ _ Ht) as [<- _]. done.
Qed.

(** The theorem at the descriptors of the concrete run. *)
Lemma run_distinct_witness :
  NoDup (config <$> run (H := ascii_interp) demo_world
                      (get_sources (H := ascii_interp) demo_world demo_settings)) ∧
  Forall (λ r, config r ∈ get_sources (H := ascii_interp) demo_world demo_settings ∧
               test_single (H := ascii_interp) demo_world (config r) = Some r)
    (run (H := ascii_interp) demo_world
       (get_sources (H := ascii_interp) demo_world demo_settings)).
Proof.
  apply (run_distinct (H := ascii_interp) demo_world).
  apply (NoDup_get_sources (H := ascii_interp)).
Defined.

(** X8: the sort of [run] is stable: results with the same latency are
    returned in the order in which the loop over [as_completed] appended
    them, whatever that order is. *)
Theorem run_ties_in_yield_order `{Interp} (w : world) (configs : list str)
    (latency : Z) :
  filter (λ r, ping r = latency) (run w configs) =
  filter (λ r, ping r = latency) (omap (test_single w) (as_completed w configs)).
Proof. unfold run. apply sorted_stable. Qed.

(** X9: when no two reachable descriptors have the same latency, the
    sequence the scheduler returns does not depend on the order in which
    the probes complete and are handed back: two worlds in which every
    probe has the same outcome give the same sequence. *)
Theorem run_completion_order_irrelevant `{Interp} (w1 w2 : world)
    (configs : list str) :
  (∀ c, test_single w1 c = test_single w2 c) →
  NoDup (ping <$> run w1 configs) →
  run w1 configs = run w2 configs.
Proof.
  intros Hsame Hnd.
  assert (run w1 configs ≡ₚ run w2 configs) as Hperm.
  { rewrite !run_perm, !as_completed_perm.
    replace (omap (test_single w1) configs) with (omap (test_single w2) configs);
      [done|].
    clear Hnd. induction configs as [|c l IH]; simpl; [done|]. rewrite Hsame.
    destruct (test_single w2 c); [f_equal|]; exact IH. }
  apply (Sorted_unique_strong (key_le ping)); [|apply sorted_sorted..|done].
  intros x1 x2 H1 H2 Hle1 Hle2. rewrite <- Hperm in H2.
  apply (NoDup_fmap_eq ping _ _ _ Hnd H1 H2). unfold key_le in *. lia.
Qed.

(** The theorem for the concrete run and the same world with the
    futures handed back in the opposite order. *)
Lemma run_completion_order_irrelevant_witness :
  run (H := ascii_interp) demo_world
    (get_sources (H := ascii_interp) demo_world demo_settings) =
  run (H := ascii_interp) reversed_world
    (get_sources (H := ascii_interp) demo_world demo_settings).
Proof.
  apply (run_completion_order_irrelevant (H := ascii_interp)
           demo_world reversed_world).
  - reflexivity.
  - vm_compute. apply NoDup_cons. split; [|apply NoDup_singleton].
    by intros ?%list_elem_of_singleton.
Defined.

(** ** Geo classification *)

Section GeoFacts.
Context `{Interp}.

Lemma mapM_res_cons {A B} (f : A → res B) (x : A) (l : list A) :
  mapM f (x :: l) = y ← f x; k ← mapM f l; mret (y :: k).
Proof. reflexivity. Qed.

Lemma chr_ok (i : N) : i < 0x110000 → chr i = Ok i.
Proof. intros Hi. unfold chr. by rewrite (proj2 (N.ltb_lt _ _) Hi). Qed.

Lemma chr_raises (i : N) : 0x110000 ≤ i → chr i = Raise ValueError.
Proof. intros Hi. unfold chr. by rewrite (proj2 (N.ltb_ge _ _) Hi). Qed.

Lemma indicators_ok (l : str) :
  Forall (λ c, c + 127397 < 0x110000) l →
  mapM (λ c, chr (c + 127397)) l = Ok ((λ c, c + 127397) <$> l).
Proof.
  induction 1 as [|c l Hc _ IH]; [done|].
  by rewrite mapM_res_cons, (chr_ok _ Hc), IH.
Qed.

Lemma indicators_raise (l : str) :
  Exists (λ c, 0x110000 ≤ c + 127397) l →
  mapM (λ c, chr (c + 127397)) l = Raise ValueError.
Proof.
  induction l as [|c l IH]; intros Hex; [inversion Hex|].
  rewrite mapM_res_cons.
  destruct (N.lt_ge_cases (c + 127397) 0x110000) as [Hc|Hc].
  - rewrite (chr_ok _ Hc). apply Exists_cons in Hex as [?|Hex]; [lia|].
    by rewrite (IH Hex).
  - by rewrite (chr_raises _ Hc).
Qed.

Lemma regional_indicators_ok (code : str) :
  Forall (λ c, c + 127397 < 0x110000) (str_upper code) →
  regional_indicators code = Ok ((λ c, c + 127397) <$> str_upper code).
Proof. apply indicators_ok. Qed.

Lemma regional_indicators_raises (code : str) (e : exn) :
  regional_indicators code = Raise e → e = ValueError.
Proof.
  unfold regional_indicators. induction (str_upper code) as [|c l IH]; [done|].
  rewrite mapM_res_cons. destruct (chr (c + 127397)) as [y|e0] eqn:Hc.
  - destruct (mapM (λ c, chr (c + 127397)) l) as [k|e']; [done|].
    intros [= ->]. by apply IH.
  - intros [= ->]. unfold chr in Hc.
    destruct (c + 127397 <? 0x110000); congruence.
Qed.
End GeoFacts.

(** X10: for an address the database knows, the classifier returns the
    ISO code as the database gives it, and as flag the characters of the
    upper-cased code, each moved up by 127397 code points. *)
Theorem get_country_and_flag_found `{Interp} (ip code : str) (country : reader) :
  ip ≠ [] → code ≠ [] →
  country ip = Ok (Some code) →
  Forall (λ c, c + 127397 < 0x110000) (str_upper code) →
  get_country_and_flag ip (Some country) =
    Ok (code, (λ c, c + 127397) <$> str_upper code).
Proof.
  intros Hip Hcode Hfound Hrange. unfold get_country_and_flag.
  destruct ip as [|i ip]; [done|]. rewrite Hfound. simpl.
  destruct code as [|c code]; [done|].
  by rewrite (regional_indicators_ok _ Hrange).
Qed.

(** The theorem for the code [us]: the flag is made of the regional
    indicators U and S, and the code keeps its case. *)
Lemma get_country_and_flag_found_witness :
  get_country_and_flag (H := ascii_interp) (lit "93.184.216.34")
    (Some (λ _, Ok (Some (lit "us")))) =
    Ok (lit "us", (λ c, c + 127397) <$> str_upper (Interp := ascii_interp) (lit "us")).
Proof.
  apply (get_country_and_flag_found (H := ascii_interp) (lit "93.184.216.34")
           (lit "us") (λ _, Ok (Some (lit "us")))).
  - discriminate.
  - discriminate.
  - reflexivity.
  - constructor; [reflexivity|]. constructor; [reflexivity|]. constructor.
Defined.

(** X11: the classifier never lets an [AddressNotFoundError] or a
    [ValueError] escape, nor an instance of a subclass such as
    [UnicodeEncodeError]; an exception that does escape is one the reader
    raised.  It answers with the Unknown tag whenever the address is
    empty, the database is missing, the lookup raises one of the
    exceptions it catches, the record has no or an empty ISO code, or a
    character of the flag would lie beyond the last code point. *)
Theorem get_country_and_flag_degrades `{Interp} (ip : str)
    (geo_reader : option reader) :
  (∀ e, e ∈ [AddressNotFoundError; ValueError; UnicodeEncodeError] →
        get_country_and_flag ip geo_reader ≠ Raise e) ∧
  (∀ e, get_country_and_flag ip geo_reader = Raise e →
        ∃ country, geo_reader = Some country ∧ country ip = Raise e) ∧
  (ip = [] ∨ geo_reader = None ∨
   (∃ country, geo_reader = Some country ∧
      ((∃ e, e ∈ [AddressNotFoundError; ValueError; UnicodeEncodeError] ∧
             country ip = Raise e) ∨
       country ip = Ok None ∨ country ip = Ok (Some []) ∨
       ∃ code, country ip = Ok (Some code) ∧
               Exists (λ c, 0x110000 ≤ c + 127397) (str_upper code))) →
   get_country_and_flag ip geo_reader = Ok Unknown).
Proof.
  unfold get_country_and_flag.
  destruct ip as [|i ip]; [by split_and!|].
  destruct geo_reader as [country|]; [|by split_and!].
  destruct (country (i :: ip)) as [[[|c code]|]|e] eqn:Hc; simpl.
  - by split_and!.
  - destruct (regional_indicators (c :: code)) as [flag|e] eqn:Hf; simpl.
    + split_and!; [done..|].
      intros [?|[?|(? & [= <-] & Hcase)]]; [done..|].
      rewrite Hc in Hcase.
      destruct Hcase as [(? & _ & ?)|[?|[?|(code' & [= <-] & Hex)]]]; try done.
      unfold regional_indicators in Hf. by rewrite (indicators_raise _ Hex) in Hf.
    + apply regional_indicators_raises in Hf as ->. by split_and!.
  - by split_and!.
  - destruct e; simpl; split_and!; try done.
    all: try (intros e Hin [= <-]; rewrite !elem_of_cons, elem_of_nil in Hin;
              by destruct Hin as [?|[?|[?|[]]]]).
    all: try (intros e [= <-]; by exists country).
    all: intros [?|[?|(? & [= <-] & Hcase)]]; try done;
      rewrite Hc in Hcase;
      destruct Hcase as [(e & Hin & [= <-])|[?|[?|(code' & ? & _)]]]; try done;
      rewrite !elem_of_cons, elem_of_nil in Hin;
      by destruct Hin as [?|[?|[?|[]]]].
Qed.

(** ** Ranking and labelling *)

(** X12: the loop of [main] rewrites only the descriptor of a result:
    there are as many labelled results as results, with the same
    latencies and hosts in the same order. *)
Theorem label_all_keeps_results `{Interp} (w : world) (cfg : settings)
    (final_results : list probe) (st : labelling) :
  label_all w cfg final_results = Ok st →
  length (labelled st) = length final_results ∧
  ping <$> labelled st = ping <$> final_results ∧
  host <$> labelled st = host <$> final_results.
Proof.
  intros Hl. apply label_all_inv in Hl as (es & Hlen & Hes & Hlab & _).
  assert (∀ {B} (f : probe → B), f <$> (e_named <$> es) = f <$> final_results →
            f <$> labelled st = f <$> final_results) as Hre.
  { intros B f. by rewrite Hlab. }
  assert (∀ {B} (f : probe → B),
            (∀ r c, f {| config := c; ping := ping r; host := host r |} = f r) →
            f <$> (e_named <$> es) = f <$> final_results) as Hfield.
  { intros B f Hf. apply list_eq. intros j. rewrite !list_lookup_fmap.
    destruct (final_results !! j) as [r|] eqn:Hr.
    - destruct (Hes j r Hr) as (e & He & flag & brand & emoji & quoted &
                                _ & _ & _ & _ & Hn & _).
      rewrite He. simpl. by rewrite Hn, Hf.
    - apply lookup_ge_None in Hr. rewrite <- Hlen in Hr.
      apply lookup_ge_None in Hr. by rewrite Hr. }
  split_and!.
  - by rewrite Hlab, length_fmap.
  - by apply Hre, Hfield.
  - by apply Hre, Hfield.
Qed.

(** The theorem at the concrete run. *)
Lemma label_all_keeps_results_witness :
  length (labelled demo_labelling) = length demo_results ∧
  ping <$> labelled demo_labelling = ping <$> demo_results ∧
  host <$> labelled demo_labelling = host <$> demo_results.
Proof.
  apply (label_all_keeps_results (H := ascii_interp) demo_world demo_settings).
  vm_compute; reflexivity.
Defined.

Lemma group_append_values (key v : str) (d : groups) :
  concat (group_append key v d).*2 ≡ₚ v :: concat d.*2.
Proof.
  induction d as [|[k vs] d IH]; [done|].
  cbn [group_append]. destruct (bool_decide (k = key)).
  - rewrite (fmap_cons snd (k, vs ++ [v]) d), (fmap_cons snd (k, vs) d).
    cbn [snd concat].
    rewrite <- app_assoc. simpl. symmetry. apply Permutation_middle.
  - rewrite (fmap_cons snd (k, vs) (group_append key v d)),
      (fmap_cons snd (k, vs) d).
    cbn [snd concat]. rewrite IH.
    symmetry. apply Permutation_middle.
Qed.

Lemma group_extend_values (d : groups) (kvs : list (str * str)) :
  concat (group_extend d kvs).*2 ≡ₚ concat d.*2 ++ kvs.*2.
Proof.
  revert d. induction kvs as [|kv kvs IH]; intros d.
  - by rewrite app_nil_r.
  - unfold group_extend in *. simpl. rewrite IH, group_append_values.
    simpl. apply Permutation_middle.
Qed.

Lemma group_append_nonempty (key v : str) (d : groups) :
  Forall (λ g, g.2 ≠ []) d → Forall (λ g, g.2 ≠ []) (group_append key v d).
Proof.
  induction 1 as [|[k vs] d Hg Hd IH]; simpl.
  - constructor; [done|constructor].
  - destruct (bool_decide (k = key)).
    + constructor; [|done]. simpl. by destruct vs.
    + constructor; [done|exact IH].
Qed.

Lemma group_extend_nonempty (d : groups) (kvs : list (str * str)) :
  Forall (λ g, g.2 ≠ []) d → Forall (λ g, g.2 ≠ []) (group_extend d kvs).
Proof.
  revert d. induction kvs as [|kv kvs IH]; intros d Hd; [done|].
  apply IH. by apply group_append_nonempty.
Qed.

(** X13: the by-country groups split the rewritten descriptors without
    loss or repetition, and so do the by-protocol groups: the keys of a
    grouping are distinct, no group is empty, and its groups together hold
    the full list, each entry once. *)
Theorem groups_partition `{Interp} (w : world) (cfg : settings)
    (final_results : list probe) (st : labelling) :
  label_all w cfg final_results = Ok st →
  (NoDup (by_country st).*1 ∧ Forall (λ g, g.2 ≠ []) (by_country st) ∧
   concat (by_country st).*2 ≡ₚ config <$> labelled st) ∧
  (NoDup (by_protocol st).*1 ∧ Forall (λ g, g.2 ≠ []) (by_protocol st) ∧
   concat (by_protocol st).*2 ≡ₚ config <$> labelled st).
Proof.
  intros Hl. apply label_all_inv in Hl as (es & _ & _ & Hlab & -> & ->).
  rewrite Hlab.
  split; split_and!.
  - apply group_extend_NoDup. constructor.
  - apply group_extend_nonempty. constructor.
  - rewrite group_extend_values. simpl. by rewrite <- !list_fmap_compose.
  - apply group_extend_NoDup. constructor.
  - apply group_extend_nonempty. constructor.
  - rewrite group_extend_values. simpl. by rewrite <- !list_fmap_compose.
Qed.

(** The theorem at the concrete run. *)
Lemma groups_partition_witness :
  (NoDup (by_country demo_labelling).*1 ∧
   Forall (λ g, g.2 ≠ []) (by_country demo_labelling) ∧
   concat (by_country demo_labelling).*2 ≡ₚ config <$> labelled demo_labelling) ∧
  (NoDup (by_protocol demo_labelling).*1 ∧
   Forall (λ g, g.2 ≠ []) (by_protocol demo_labelling) ∧
   concat (by_protocol demo_labelling).*2 ≡ₚ config <$> labelled demo_labelling).
Proof.
  apply (groups_partition (H := ascii_interp) demo_world demo_settings demo_results).
  vm_compute; reflexivity.
Defined.



(** ** The fragment and the endpoint *)

Lemma quote_safe_range (c : N) : quote_safe c = true → 45 ≤ c ≤ 126.
Proof.
  unfold quote_safe. intros Hs.
  repeat (apply orb_true_iff in Hs as [Hs|Hs]);
    repeat match goal with
           | H : _ && _ = true |- _ => apply andb_true_iff in H as [? ?]
           | H : (_ <=? _) = true |- _ => apply N.leb_le in H
           | H : (_ =? _) = true |- _ => apply N.eqb_eq in H
           end; lia.
Qed.

Lemma hex_digit_safe (n : N) : n < 16 → quote_safe (hex_digit n) = true.
Proof. by_cases 16%nat. Qed.

Lemma quote_byte_chars (b : N) :
  b < 256 → Forall (λ c, 37 ≤ c ≤ 126) (quote_byte b).
Proof.
  intros Hb. unfold quote_byte. destruct (quote_safe b) eqn:Hs.
  - repeat constructor; apply quote_safe_range in Hs; lia.
  - pose proof (high4 b Hb) as Hh%N.ltb_lt.
    pose proof (low4 b Hb) as Hl%N.ltb_lt.
    apply hex_digit_safe, quote_safe_range in Hh, Hl.
    repeat constructor; lia.
Qed.

(** [quote] returns printable ASCII from [%] to [~] only. *)
Lemma quote_chars (s q : str) :
  quote s = Ok q → Forall (λ c, 37 ≤ c ≤ 126) q.
Proof.
  unfold quote. destruct (encode_utf8 s) as [bs|] eqn:Hbs; [|done].
  intros [= <-]. apply encode_utf8_bytes in Hbs.
  induction Hbs as [|b bs Hb _ IH]; [constructor|].
  simpl. apply Forall_app. split; [by apply quote_byte_chars|done].
Qed.

Lemma printable_one_line (q : str) :
  Forall (λ c, 37 ≤ c ≤ 126) q → one_line q.
Proof.
  intros Hq. eapply Forall_impl; [exact Hq|].
  intros c Hc. simpl in Hc. unfold is_linebreak.
  repeat match goal with
         | |- context [?x <=? ?y] => destruct (N.leb_spec x y)
         | |- context [?x =? ?y] => destruct (N.eqb_spec x y)
         end; simpl; try done; lia.
Qed.

Lemma one_line_no_newline (s : str) : one_line s → chr_newline ∉ s.
Proof.
  unfold one_line. rewrite Forall_forall. intros Hs Hin.
  by specialize (Hs _ Hin).
Qed.

Lemma before_first_one_line (c : char) (s : str) :
  one_line s → one_line (before_first c s).
Proof.
  induction 1 as [|a s Ha _ IH]; simpl; [constructor|].
  destruct (a =? c); by constructor.
Qed.

Lemma split_char_absent (c : char) (p : str) : c ∉ p → split [c] p = [p].
Proof.
  intros Hn. apply not_contains_split. by apply contains_char_not_elem.
Qed.

Lemma split_char_app (c : char) (p rest : str) :
  c ∉ p → split [c] (p ++ c :: rest) = p :: split [c] rest.
Proof.
  induction p as [|a p IH]; intros Hn.
  - simpl. by rewrite split_char_cons, N.eqb_refl.
  - apply not_elem_of_cons in Hn as [Hne Hn].
    rewrite <- app_comm_cons, split_char_cons, (IH Hn).
    by rewrite (proj2 (N.eqb_neq c a)).
Qed.

(** Splitting a joined list gives the list back when no part holds the
    separator. *)
Lemma split_join_char (c : char) (parts : list str) :
  parts ≠ [] → Forall (λ p, c ∉ p) parts →
  split [c] (join [c] parts) = parts.
Proof.
  intros Hne Hall. induction Hall as [|p l Hp Hl IH]; [done|].
  destruct l as [|q l].
  - simpl. by apply split_char_absent.
  - rewrite join_cons_cons. cbn [app].
    rewrite (split_char_app c p _ Hp). by rewrite IH.
Qed.

Section MainFacts.
Context `{Interp}.

Lemma run_configs_one_line (w : world) (cfg : settings) :
  Forall (λ r, one_line (config r)) (run w (get_sources w cfg)).
Proof.
  apply Forall_forall. intros r (c & Hc & Ht)%elem_of_run.
  apply test_single_inv in Ht as [-> _].
  by apply one_line_get_sources in Hc.
Qed.
End MainFacts.

(** X15: the text written to [v2ray/all_sub.txt] has one rewritten
    descriptor on each line: no rewritten descriptor contains a line
    break, so splitting the text at the newlines gives back the list of
    rewritten descriptors in latency order. *)
Theorem aggregate_lines `{Interp} (w : world) (cfg : settings) (out : outcome) :
  main w cfg = (out, Ok ()) →
  run w (get_sources w cfg) ≠ [] →
  ∃ st plain,
    label_all w cfg (run w (get_sources w cfg)) = Ok st ∧
    Forall one_line (config <$> labelled st) ∧
    encode_utf8 (join [chr_newline] (config <$> labelled st)) = Ok plain ∧
    (v2ray_path cfg, plain) ∈ files out ∧
    split [chr_newline] (join [chr_newline] (config <$> labelled st)) =
      config <$> labelled st.
Proof.
  intros Hm Hrun.
  destruct (main_inv _ _ _ Hm Hrun) as (st & rf & pf & plain & Hl & _ & _ & Hp & ->).
  exists st, plain.
  assert (Forall one_line (config <$> labelled st)) as Hlines.
  { apply Forall_forall. intros c' (r' & -> & Hr')%list_elem_of_fmap.
    apply list_elem_of_lookup in Hr' as [i Hi].
    pose proof (label_all_inv _ _ _ _ Hl) as (es & Hlen & Hes & Hlab & _).
    rewrite Hlab, list_lookup_fmap in Hi.
    destruct (es !! i) as [e|] eqn:He; [|done]. injection Hi as <-.
    destruct (run w (get_sources w cfg) !! i) as [r|] eqn:Hr.
    - destruct (Hes i r Hr) as (e' & He' & flag & brand & emoji & quoted &
                                _ & _ & _ & Hq & Hn & _).
      rewrite He in He'. injection He' as <-. rewrite Hn. simpl.
      apply Forall_app. split; [|constructor; [done|]].
      + apply before_first_one_line.
        eapply (Forall_forall (λ r, one_line (config r)));
          [apply run_configs_one_line|]. by eapply list_elem_of_lookup_2.
      + by eapply printable_one_line, quote_chars.
    - apply lookup_ge_None in Hr. rewrite <- Hlen in Hr.
      apply lookup_ge_None in Hr. congruence. }
  split_and!; try done.
  - simpl. rewrite !elem_of_app. right. right. left.
  - apply split_join_char.
    + pose proof (label_all_inv _ _ _ _ Hl) as (es & Hlen & _ & Hlab & _).
      rewrite Hlab. destruct es; [|done].
      destruct (run w (get_sources w cfg)); done.
    + eapply Forall_impl; [done|]. intros. by apply one_line_no_newline.
Qed.

(** The theorem at the concrete run. *)
Lemma aggregate_lines_witness :
  ∃ st plain,
    label_all (H := ascii_interp) demo_world demo_settings
      (run (H := ascii_interp) demo_world
         (get_sources (H := ascii_interp) demo_world demo_settings)) = Ok st ∧
    Forall one_line (config <$> labelled st) ∧
    encode_utf8 (join [chr_newline] (config <$> labelled st)) = Ok plain ∧
    (v2ray_path demo_settings, plain) ∈ files demo_outcome ∧
    split [chr_newline] (join [chr_newline] (config <$> labelled st)) =
      config <$> labelled st.
Proof.
  apply (aggregate_lines (H := ascii_interp) demo_world demo_settings demo_outcome).
  - vm_compute; reflexivity.
  - vm_compute. discriminate.
Defined.

Lemma startswith_SEP_app (p x : str) :
  fragment_or_end x → startswith SEP (p ++ x) = startswith SEP p.
Proof.
  intros Hx.
  assert (∀ sep, chr_hash ∉ sep → ∀ p, startswith sep (p ++ x) = startswith sep p)
    as Hgen.
  { intros sep. induction sep as [|a sep IH]; intros Hsep q; [by destruct q|].
    apply not_elem_of_cons in Hsep as [Ha Hsep].
    destruct q as [|b q]; simpl.
    - destruct Hx as [->|[t ->]]; [done|]. simpl.
      by rewrite (proj2 (N.eqb_neq a chr_hash)).
    - by rewrite IH. }
  apply Hgen. unfold SEP, chr_hash.
  intros Hin. repeat (apply elem_of_cons in Hin as [Hin|Hin]; [done|]).
  inversion Hin.
Qed.

Lemma split_go_skip (sep : str) (k : nat) (c : char) (s : str) :
  split_go sep (S k) (c :: s) = split_go sep k s.
Proof. reflexivity. Qed.

Lemma split_go_0 (sep : str) (c : char) (s : str) :
  split_go sep 0 (c :: s) =
    if startswith sep (c :: s) then [] :: split_go sep (length sep - 1) s
    else match split_go sep 0 s with
         | piece :: rest => (c :: piece) :: rest
         | [] => [[c]]
         end.
Proof. reflexivity. Qed.

(** The first piece after [k] skipped characters, up to its first [#], is
    the same whether or not a fragment follows. *)
Lemma first_piece_fragment (p x : str) (k : nat) :
  chr_hash ∉ p → fragment_or_end x → (k ≤ length p)%nat →
  before_first chr_hash (default [] (head (split_go SEP k (p ++ x)))) =
  before_first chr_hash (default [] (head (split_go SEP k p))).
Proof.
  intros Hp Hx. revert k. induction p as [|c p IH]; intros k Hk.
  - simpl in Hk. replace k with 0%nat by lia. simpl.
    destruct Hx as [->|[t ->]]; [done|].
    rewrite split_go_0. cbn [startswith SEP lit map String.list_ascii_of_string].
    simpl. by destruct (split_go SEP 0 t).
  - apply not_elem_of_cons in Hp as [Hc Hp]. rewrite <- app_comm_cons.
    destruct k as [|k].
    + rewrite !split_go_0, app_comm_cons, (startswith_SEP_app (c :: p) x Hx).
      destruct (startswith SEP (c :: p)); [done|].
      specialize (IH Hp 0%nat ltac:(lia)).
      pose proof (split_go_nonempty SEP 0 (p ++ x)).
      pose proof (split_go_nonempty SEP 0 p).
      destruct (split_go SEP 0 (p ++ x)), (split_go SEP 0 p); try done.
      simpl in *. rewrite (proj2 (N.eqb_neq c chr_hash)) by done. by rewrite IH.
    + rewrite !split_go_skip. apply IH; [done|]. simpl in Hk. lia.
Qed.

Lemma startswith_length (sep s : str) :
  startswith sep s = true → (length sep ≤ length s)%nat.
Proof.
  revert s. induction sep as [|a sep IH]; intros s; simpl; [lia|].
  destruct s as [|b s]; [done|]. intros [_ Hs]%andb_true_iff.
  apply IH in Hs. simpl. lia.
Qed.

(** The piece after the first [://], up to its first [#], is the same
    whether or not a fragment follows. *)
Lemma second_piece_fragment (p x : str) :
  chr_hash ∉ p → fragment_or_end x → contains SEP p = true →
  ∃ u u', index (split SEP (p ++ x)) 1 = Ok u ∧
          index (split SEP p) 1 = Ok u' ∧
          before_first chr_hash u = before_first chr_hash u'.
Proof.
  intros Hp Hx. unfold split, index. induction p as [|c p IH]; intros Hc; [done|].
  apply not_elem_of_cons in Hp as [Hne Hp]. rewrite <- app_comm_cons.
  rewrite !split_go_0, app_comm_cons, (startswith_SEP_app (c :: p) x Hx).
  destruct (startswith SEP (c :: p)) eqn:Hs.
  - pose proof (first_piece_fragment p x (length SEP - 1) Hp Hx) as Hf.
    apply startswith_length in Hs. simpl in Hs.
    specialize (Hf ltac:(simpl; lia)).
    pose proof (split_go_nonempty SEP (length SEP - 1) (p ++ x)).
    pose proof (split_go_nonempty SEP (length SEP - 1) p).
    destruct (split_go SEP (length SEP - 1) (p ++ x)) as [|u l]; [done|].
    destruct (split_go SEP (length SEP - 1) p) as [|u' l']; [done|].
    exists u, u'. by split_and!.
  - change (contains SEP (c :: p))
      with (startswith SEP (c :: p) || contains SEP p) in Hc.
    rewrite Hs in Hc. cbn [orb] in Hc.
    destruct (IH Hp Hc) as (u & u' & Hu & Hu' & Heq).
    destruct (split_go SEP 0 (p ++ x)) as [|a [|b l]]; try done.
    destruct (split_go SEP 0 p) as [|a' [|b' l']]; try done.
    simpl in *. exists u, u'. by split_and!.
Qed.

Lemma contains_app_l (sep p x : str) :
  contains sep p = true → contains sep (p ++ x) = true.
Proof.
  assert (∀ q, startswith sep q = true → startswith sep (q ++ x) = true) as Hs.
  { induction sep as [|a sep IH]; intros q; [done|].
    destruct q as [|b q]; [done|]. simpl.
    intros [-> Hq]%andb_true_iff. by rewrite IH. }
  induction p as [|c p IH]; simpl.
  - rewrite orb_false_r. intros Hp. specialize (Hs [] Hp). simpl in Hs.
    destruct x; simpl; by rewrite Hs.
  - intros [Hp|Hp]%orb_true_iff.
    + specialize (Hs (c :: p) Hp). simpl in Hs. by rewrite Hs.
    + by rewrite (IH Hp), orb_true_r.
Qed.

Section FragmentFacts.
Context `{Interp}.

Lemma host_part_of_fragment (p x : str) :
  chr_hash ∉ p → fragment_or_end x → contains SEP p = true →
  host_part_of (p ++ x) = host_part_of p.
Proof.
  intros Hp Hx Hc.
  destruct (second_piece_fragment p x Hp Hx Hc) as (u & u' & Hu & Hu' & Heq).
  unfold host_part_of. rewrite Hu, Hu'. simpl.
  rewrite !index_0_split_char. simpl. by rewrite Heq.
Qed.

(** Host and port of a descriptor do not depend on its fragment, when the
    [://] stands before the fragment. *)
Lemma parse_fragment (p x : str) :
  chr_hash ∉ p → fragment_or_end x → contains SEP p = true →
  parse (p ++ x) = parse p.
Proof.
  intros Hp Hx Hc. unfold parse. rewrite !parse_target_stages.
  rewrite (contains_app_l _ _ x Hc), Hc. simpl.
  by rewrite host_part_of_fragment.
Qed.
End FragmentFacts.

(** X16: the rewritten descriptor names the same endpoint as the original
    one: when the [://] of a descriptor stands before its fragment, the
    parser finds the same host and port in both. *)
Theorem rewritten_same_endpoint `{Interp} (w : world) (cfg : settings)
    (final_results : list probe) (st : labelling) (i : nat) (r r' : probe) :
  label_all w cfg final_results = Ok st →
  final_results !! i = Some r →
  labelled st !! i = Some r' →
  contains SEP (before_first chr_hash (config r)) = true →
  parse (config r') = parse (config r).
Proof.
  intros Hl Hr Hr' Hc.
  apply label_all_inv in Hl as (es & _ & Hes & Hlab & _).
  destruct (Hes i r Hr) as (e & He & flag & brand & emoji & quoted &
                            _ & _ & _ & _ & Hn & _).
  rewrite Hlab, list_lookup_fmap, He in Hr'. injection Hr' as <-.
  rewrite Hn. simpl.
  destruct (before_first_spec chr_hash (config r)) as (Hno & rest & Hrest & Hcase).
  rewrite (parse_fragment _ (chr_hash :: quoted) Hno); [|right; by eexists|done].
  rewrite <- (parse_fragment _ rest Hno Hcase Hc). by rewrite <- Hrest.
Qed.

(** The theorem at the first result of the concrete run. *)
Lemma rewritten_same_endpoint_witness :
  parse (H := ascii_interp)
    (lit "vless://b@[::1]:8443?x=1#%F0%9F%8C%90%20Unk.%20%23001%20%7CV2XCore%20e2") =
  parse (H := ascii_interp) (lit "vless://b@[::1]:8443?x=1#n").
Proof.
  apply (rewritten_same_endpoint (H := ascii_interp) demo_world demo_settings
           demo_results demo_labelling 0
           {| config := lit "vless://b@[::1]:8443?x=1#n"; ping := 0;
              host := lit "::1" |}
           {| config := lit "vless://b@[::1]:8443?x=1#%F0%9F%8C%90%20Unk.%20%23001%20%7CV2XCore%20e2";
              ping := 0; host := lit "::1" |});
    vm_compute; reflexivity.
Defined.

(** ** The files *)

Section FilesFacts.
Context `{Interp}.

Lemma write_groups_dirs (w : world) (cfg : settings) (dir : str) (d : groups)
    (fs : list (str * bytes)) :
  dir ∈ dirs_to_create cfg →
  Forall2 (group_file w dir) d fs →
  Forall (λ f, in_created_dir cfg f.1) fs.
Proof.
  intros Hdir. induction 1 as [|g f d fs (Hp & _) _ IH]; constructor; [|done].
  exists dir, (g.1 ++ lit ".txt"). done.
Qed.
End FilesFacts.

(** X17: when [main] ends normally with something reachable, the files
    it wrote are, in this order, one file per by-country group in
    [regions], one per by-protocol group in [filtered/subs], and the two
    aggregate files.  A group file is named after the key of its group
    and holds the descriptors of the group joined by newlines.  Every
    path is formed from a directory that [setup_directories] creates. *)
Theorem files_layout `{Interp} (w : world) (cfg : settings) (out : outcome) :
  main w cfg = (out, Ok ()) →
  run w (get_sources w cfg) ≠ [] →
  ∃ st region_files protocol_files aggregate_files,
    label_all w cfg (run w (get_sources w cfg)) = Ok st ∧
    files out = region_files ++ protocol_files ++ aggregate_files ∧
    Forall2 (group_file w (path_join (base_dir cfg) (lit "regions")))
      (by_country st) region_files ∧
    Forall2 (group_file w
               (path_join (path_join (base_dir cfg) (lit "filtered")) (lit "subs")))
      (by_protocol st) protocol_files ∧
    aggregate_files.*1 = [v2ray_path cfg; base64_path cfg] ∧
    Forall (λ f, in_created_dir cfg f.1) (files out).
Proof.
  intros Hm Hrun.
  destruct (main_inv _ _ _ Hm Hrun)
    as (st & rf & pf & plain & Hl & Hrf & Hpf & Hp & ->).
  exists st, rf, pf,
    [(v2ray_path cfg, plain); (base64_path cfg, b64encode plain)].
  split_and!; try done. simpl.
  rewrite !Forall_app. split_and!.
  - eapply write_groups_dirs; [|done].
    unfold dirs_to_create. rewrite !elem_of_cons. tauto.
  - eapply write_groups_dirs; [|done].
    unfold dirs_to_create. rewrite !elem_of_cons. tauto.
  - repeat constructor; simpl.
    + exists (path_join (base_dir cfg) (lit "v2ray")), (lit "all_sub.txt").
      split; [|done]. unfold dirs_to_create. rewrite !elem_of_cons. tauto.
    + exists (path_join (base_dir cfg) (lit "base64")), (lit "all_sub.txt").
      split; [|done]. unfold dirs_to_create. rewrite !elem_of_cons. tauto.
Qed.

(** The theorem at the concrete run. *)
Lemma files_layout_witness :
  ∃ st region_files protocol_files aggregate_files,
    label_all (H := ascii_interp) demo_world demo_settings
      (run (H := ascii_interp) demo_world
         (get_sources (H := ascii_interp) demo_world demo_settings)) = Ok st ∧
    files demo_outcome = region_files ++ protocol_files ++ aggregate_files ∧
    Forall2 (group_file demo_world
               (path_join (base_dir demo_settings) (lit "regions")))
      (by_country st) region_files ∧
    Forall2 (group_file demo_world
               (path_join (path_join (base_dir demo_settings) (lit "filtered"))
                  (lit "subs")))
      (by_protocol st) protocol_files ∧
    aggregate_files.*1 = [v2ray_path demo_settings; base64_path demo_settings] ∧
    Forall (λ f, in_created_dir demo_settings f.1) (files demo_outcome).
Proof.
  apply (files_layout (H := ascii_interp) demo_world demo_settings demo_outcome).
  - vm_compute; reflexivity.
  - vm_compute. discriminate.
Defined.

(** ** The rank in the display name *)

Lemma lit_String (a : Ascii.ascii) (s : string) :
  lit (String a s) = Ascii.N_of_ascii a :: lit s.
Proof. reflexivity. Qed.

Lemma scan_uint (d : Decimal.uint) : ∀ (prev : char) (acc k : nat),
  prev ≠ 95 →
  scan_digits prev (Z.of_nat acc) k (lit (NilEmpty.string_of_uint d)) =
    Some (Z.of_nat (Nat.of_uint_acc d acc), (k + Decimal.nb_digits d)%nat, []).
Proof.
  induction d as [|d IH|d IH|d IH|d IH|d IH|d IH|d IH|d IH|d IH|d IH];
    intros prev acc k Hprev;
    cbn [NilEmpty.string_of_uint Nat.of_uint_acc Decimal.nb_digits].
  1: { change (lit EmptyString) with (@nil char). cbn [scan_digits].
       rewrite (proj2 (N.eqb_neq prev 95) Hprev).
       by rewrite Nat.add_0_r. }
  all: rewrite lit_String, Nat.tail_mul_spec;
    match goal with
    | |- context [Ascii.N_of_ascii ?a] =>
        let c := eval vm_compute in (Ascii.N_of_ascii a) in
        change (Ascii.N_of_ascii a) with c
    end;
    cbn [scan_digits];
    match goal with
    | |- context [digit_value ?c] =>
        let v := eval vm_compute in (digit_value c) in
        change (digit_value c) with v;
        change (c =? 95) with false
    end;
    cbv iota beta;
    match goal with
    | |- scan_digits ?c ?z _ _ = Some (Z.of_nat (Nat.of_uint_acc _ ?a), _, _) =>
        replace z with (Z.of_nat a) by lia
    end;
    rewrite IH by done;
    replace (S k + Decimal.nb_digits d)%nat
      with (k + S (Decimal.nb_digits d))%nat by lia;
    reflexivity.
Qed.

Lemma scan_zeros (m : nat) : ∀ (prev : char) (k : nat) (rest : str),
  scan_digits prev 0 k (replicate m 48 ++ rest) =
    scan_digits (match m with O => prev | S _ => 48 end) 0 (k + m) rest.
Proof.
  induction m as [|m IH]; intros prev k rest.
  - by rewrite Nat.add_0_r.
  - cbn [replicate app scan_digits]. cbn. rewrite IH.
    replace (S k + m)%nat with (k + S m)%nat by lia. by destruct m.
Qed.

Lemma lit_uint_digits (d : Decimal.uint) :
  Forall is_digit (lit (NilEmpty.string_of_uint d)) ∧
  length (lit (NilEmpty.string_of_uint d)) = Decimal.nb_digits d.
Proof.
  unfold is_digit.
  induction d as [|d [IH1 IH2]|d [IH1 IH2]|d [IH1 IH2]|d [IH1 IH2]|d [IH1 IH2]
                 |d [IH1 IH2]|d [IH1 IH2]|d [IH1 IH2]|d [IH1 IH2]|d [IH1 IH2]];
    cbn [NilEmpty.string_of_uint Decimal.nb_digits];
    [by split; [constructor|]|..];
    rewrite lit_String; (split; [constructor; [cbn; lia|done]|]);
    cbn [length]; by rewrite IH2.
Qed.

Lemma to_uint_nonnil (n : nat) : Nat.to_uint n ≠ Decimal.Nil.
Proof.
  rewrite <- (Unsigned.of_to n) at 1. rewrite Unsigned.to_of.
  apply unorm_nonnil.
Qed.

Lemma decimal_plain (n : nat) :
  decimal n = lit (NilEmpty.string_of_uint (Nat.to_uint n)).
Proof.
  unfold decimal, NilZero.string_of_uint.
  pose proof (to_uint_nonnil n). by destruct (Nat.to_uint n).
Qed.

Lemma fmt_03d_scan (i : nat) :
  scan_digits 0 0 0 (fmt_03d i) = Some (Z.of_nat i, length (fmt_03d i), []).
Proof.
  unfold fmt_03d. cbv zeta. rewrite scan_zeros, decimal_plain.
  change 0%Z with (Z.of_nat 0).
  rewrite scan_uint by (by destruct (3 - _)%nat).
  fold (Nat.of_uint (Nat.to_uint i)). rewrite Unsigned.of_to.
  rewrite length_app, length_replicate.
  by rewrite !(proj2 (lit_uint_digits _)).
Qed.

Lemma fmt_03d_digits (i : nat) :
  Forall is_digit (fmt_03d i) ∧ (3 ≤ length (fmt_03d i))%nat.
Proof.
  unfold fmt_03d. cbv zeta. split.
  - apply Forall_app. split.
    + apply Forall_forall. intros c [-> _]%elem_of_replicate. unfold is_digit. lia.
    + rewrite decimal_plain. apply lit_uint_digits.
  - rewrite length_app, length_replicate.
    unfold char. lia.
Qed.

Lemma is_digit_cases (c : char) :
  is_digit c → c ∈ [48; 49; 50; 51; 52; 53; 54; 55; 56; 57].
Proof.
  unfold is_digit. intros Hc. rewrite !elem_of_cons.
  destruct (N.eq_dec c 48); [tauto|]. destruct (N.eq_dec c 49); [tauto|].
  destruct (N.eq_dec c 50); [tauto|]. destruct (N.eq_dec c 51); [tauto|].
  destruct (N.eq_dec c 52); [tauto|]. destruct (N.eq_dec c 53); [tauto|].
  destruct (N.eq_dec c 54); [tauto|]. destruct (N.eq_dec c 55); [tauto|].
  destruct (N.eq_dec c 56); [tauto|]. destruct (N.eq_dec c 57); [tauto|]. lia.
Qed.

Section RankFacts.
Context `{Interp}.

(** [int] of a text that begins with a digit: no sign, no space to pass. *)
Lemma parse_long_unsigned (c : char) (t : str) :
  is_digit c →
  parse_long (c :: t) =
    match scan_digits 0 0%Z 0%nat (c :: t) with
    | Some (v, digits, rest) =>
        if (digits =? 0)%nat then None
        else if (640 <? digits)%nat && (0 <? max_str_digits)%nat
                && (max_str_digits <? digits)%nat then None
        else if forallb isspace_c rest then Some v
        else None
    | None => None
    end.
Proof.
  intros Hc%is_digit_cases.
  repeat (apply elem_of_cons in Hc as [->|Hc]; [reflexivity|]).
  inversion Hc.
Qed.
End RankFacts.

Lemma fmt_03d_width (i : nat) : (i < 1000)%nat → length (fmt_03d i) = 3%nat.
Proof.
  intros Hi.
  assert (forallb (λ i, length (fmt_03d i) =? 3)%nat (seq 0 1000) = true) as Hall
    by (vm_compute; reflexivity).
  rewrite forallb_forall in Hall. apply Nat.eqb_eq, Hall, in_seq. lia.
Qed.

(** X18: the rank is written with at least three characters, all of them
    decimal digits, and exactly three below 1000; read as a number by
    [int], the text gives the rank back. *)
Theorem fmt_03d_reads_back `{Interp} (i : nat) :
  (length (fmt_03d i) ≤ 640)%nat →
  (3 ≤ length (fmt_03d i))%nat ∧
  ((i < 1000)%nat → length (fmt_03d i) = 3%nat) ∧
  Forall is_digit (fmt_03d i) ∧
  py_int (fmt_03d i) = Ok (Z.of_nat i).
Proof.
  intros Hlen. destruct (fmt_03d_digits i) as [Hd H3].
  split_and!; try done; [apply fmt_03d_width|].
  unfold py_int.
  assert (is_ascii (fmt_03d i) = true) as ->.
  { apply forallb_forall. intros c Hc%list_elem_of_In.
    eapply Forall_forall in Hd; [|done]. unfold is_digit in Hd.
    apply N.ltb_lt. lia. }
  pose proof (fmt_03d_scan i) as Hscan.
  destruct (fmt_03d i) as [|c t] eqn:Hf; [simpl in H3; lia|].
  apply Forall_cons in Hd as [Hc _].
  rewrite (parse_long_unsigned c t Hc), Hscan.
  destruct (Nat.eqb_spec (length (c :: t)) 0) as [E|_]; [simpl in E; lia|].
  rewrite (proj2 (Nat.ltb_ge 640 (length (c :: t)))) by done.
  done.
Qed.

(** The theorem at rank 7, written [007]. *)
Lemma fmt_03d_reads_back_witness :
  (3 ≤ length (fmt_03d 7))%nat ∧
  ((7 < 1000)%nat → length (fmt_03d 7) = 3%nat) ∧
  Forall is_digit (fmt_03d 7) ∧
  py_int (H := ascii_interp) (fmt_03d 7) = Ok (Z.of_nat 7).
Proof.
  apply (fmt_03d_reads_back (H := ascii_interp) 7). vm_compute. lia.
Defined.

(** ** Brackets around the host *)

Lemma existsb_eqb_elem (a : char) (cs : list char) :
  existsb (N.eqb a) cs = true ↔ a ∈ cs.
Proof.
  rewrite existsb_exists, list_elem_of_In. split.
  - intros (x & Hx & ->%N.eqb_eq). done.
  - intros Hin. exists a. split; [done|apply N.eqb_refl].
Qed.

Lemma lstrip_spec (cs : list char) (s : str) :
  ∃ pre, s = pre ++ lstrip cs s ∧ Forall (λ a, a ∈ cs) pre ∧
         ∀ a t, lstrip cs s = a :: t → a ∉ cs.
Proof.
  induction s as [|b s (pre & Hs & Hpre & Hhd)]; simpl.
  - exists []. by split_and!.
  - destruct (existsb (N.eqb b) cs) eqn:Hb.
    + exists (b :: pre). split_and!; [by rewrite Hs at 1| |done].
      constructor; [by apply existsb_eqb_elem|done].
    + exists []. split_and!; [done|constructor|].
      intros a t [= <- _]. rewrite <- existsb_eqb_elem. by rewrite Hb.
Qed.

(** [strip] removes characters of the set from both ends, and nothing
    else; what is left neither begins nor ends with one of them. *)
Lemma strip_spec (cs : list char) (s : str) :
  ∃ pre suf, s = pre ++ strip cs s ++ suf ∧
             Forall (λ a, a ∈ cs) pre ∧ Forall (λ a, a ∈ cs) suf ∧
             (∀ a t, strip cs s = a :: t → a ∉ cs) ∧
             (∀ a, last (strip cs s) = Some a → a ∉ cs).
Proof.
  unfold strip.
  destruct (lstrip_spec cs s) as (pre & Hs & Hpre & Hhd).
  destruct (lstrip_spec cs (rev (lstrip cs s))) as (pre2 & Hr & Hpre2 & Hhd2).
  set (m := lstrip cs s) in *. set (m2 := lstrip cs (rev m)) in *.
  assert (m = rev m2 ++ rev pre2) as Hm.
  { rewrite <- rev_app_distr, <- Hr. by rewrite rev_involutive. }
  exists pre, (rev pre2). split_and!.
  - by rewrite <- Hm.
  - done.
  - apply Forall_forall. intros a Ha. rewrite list_elem_of_In in Ha.
    apply in_rev in Ha. rewrite <- list_elem_of_In in Ha.
    by eapply Forall_forall in Hpre2.
  - intros a t Ht. apply (Hhd a (t ++ rev pre2)). by rewrite Hm, Ht.
  - intros a Ha. destruct m2 as [|b m2']; [done|].
    simpl in Ha. rewrite last_snoc in Ha. injection Ha as <-.
    by apply (Hhd2 b m2').
Qed.

(** X19: when the authority has a colon, the host the parser returns is
    the text before the last colon without the brackets at its two ends:
    only brackets are removed, and the host neither begins nor ends with
    one.  The port is the value of the text after that colon. *)
Theorem host_without_brackets `{Interp} (c hp hps h : str) (p : Z) :
  host_part_of c = Ok hp →
  host_port_str_of hp = Ok hps →
  contains [chr_colon] hps = true →
  parse c = Some (h, p) →
  ∃ before after pre suf,
    hps = before ++ [chr_colon] ++ after ∧ (chr_colon ∉ after) ∧
    py_int after = Ok p ∧
    before = pre ++ h ++ suf ∧
    Forall is_bracket pre ∧ Forall is_bracket suf ∧
    (∀ a t, h = a :: t → ¬ is_bracket a) ∧
    (∀ a, last h = Some a → ¬ is_bracket a).
Proof.
  intros Hhp Hhps Hcol Hparse. unfold parse in Hparse.
  rewrite (parse_stages _ _ _ Hhp Hhps) in Hparse.
  destruct (host_and_port_colon _ Hcol) as (before & after & Hs & Hn & Heq).
  rewrite Heq in Hparse.
  destruct (py_int after) as [port|] eqn:Hport; [|done].
  cbn in Hparse. injection Hparse as <- <-.
  destruct (strip_spec [chr_lbracket; chr_rbracket] before)
    as (pre & suf & Hb & Hpre & Hsuf & Hhd & Hlast).
  assert (∀ a, a ∈ [chr_lbracket; chr_rbracket] ↔ is_bracket a) as Hbr.
  { intros a. unfold is_bracket. rewrite !elem_of_cons, elem_of_nil. tauto. }
  exists before, after, pre, suf. split_and!; try done.
  - eapply Forall_impl; [done|]. intros a. apply Hbr.
  - eapply Forall_impl; [done|]. intros a. apply Hbr.
  - intros a t Ht. rewrite <- Hbr. by apply (Hhd a t).
  - intros a Ha. rewrite <- Hbr. by apply Hlast.
Qed.

(** The theorem at the descriptor of an IPv6 literal. *)
Lemma host_without_brackets_witness :
  ∃ before after pre suf,
    lit "[::1]:8443" = before ++ [chr_colon] ++ after ∧ (chr_colon ∉ after) ∧
    py_int (H := ascii_interp) after = Ok 8443%Z ∧
    before = pre ++ lit "::1" ++ suf ∧
    Forall is_bracket pre ∧ Forall is_bracket suf ∧
    (∀ a t, lit "::1" = a :: t → ¬ is_bracket a) ∧
    (∀ a, last (lit "::1") = Some a → ¬ is_bracket a).
Proof.
  apply (host_without_brackets (H := ascii_interp)
           (lit "vless://b@[::1]:8443#old") (lit "b@[::1]:8443")
           (lit "[::1]:8443") (lit "::1") 8443); reflexivity.
Defined.

(** ** The display name *)

Lemma to_uint_leading_zero (n : nat) (d : Decimal.uint) :
  Nat.to_uint n = Decimal.D0 d → d = Decimal.Nil.
Proof.
  intros Hn. pose proof (Unsigned.to_of (Nat.to_uint n)) as Hu.
  rewrite Unsigned.of_to, Hn, unorm_D0 in Hu.
  assert (d = Decimal.Nil ∨ d ≠ Decimal.Nil) as [?|Hd]
    by (destruct d; [by left|by right..]); [done|].
  apply nb_digits_unorm in Hd. rewrite <- Hu in Hd. simpl in Hd. lia.
Qed.

Lemma digits_uint (d : Decimal.uint) : ∀ acc : nat,
  foldl (λ acc c, 10 * acc + (c - 48)) (N.of_nat acc)
    (lit (NilEmpty.string_of_uint d)) =
  N.of_nat (Nat.of_uint_acc d acc).
Proof.
  induction d as [|d IH|d IH|d IH|d IH|d IH|d IH|d IH|d IH|d IH|d IH];
    intros acc; cbn [NilEmpty.string_of_uint Nat.of_uint_acc]; [done|..].
  all: rewrite lit_String, Nat.tail_mul_spec;
    match goal with
    | |- context [Ascii.N_of_ascii ?a] =>
        let c := eval vm_compute in (Ascii.N_of_ascii a) in
        change (Ascii.N_of_ascii a) with c
    end;
    cbn [foldl]; rewrite <- IH; f_equal; lia.
Qed.

Lemma digits_zeros (m : nat) (rest : str) :
  digits_value (replicate m 48 ++ rest) = digits_value rest.
Proof. unfold digits_value. induction m as [|m IH]; [done|]. exact IH. Qed.

Lemma head_lit_uint (d : Decimal.uint) :
  head (lit (NilEmpty.string_of_uint d)) = Some 48 → ∃ d', d = Decimal.D0 d'.
Proof. destruct d; try done. by eexists. Qed.

(** The rank as [{i:03d}] writes it is [i] zero-padded to three digits. *)
Lemma fmt_03d_zero_padded (i : nat) : zero_padded 3 (N.of_nat i) (fmt_03d i).
Proof.
  destruct (fmt_03d_digits i) as [Hd H3]. split_and!; [done| |done|].
  - unfold fmt_03d. cbv zeta. rewrite digits_zeros, decimal_plain.
    unfold digits_value. change 0 with (N.of_nat 0).
    rewrite digits_uint. fold (Nat.of_uint (Nat.to_uint i)).
    by rewrite Unsigned.of_to.
  - unfold fmt_03d. cbv zeta. rewrite length_app, length_replicate.
    intros Hlen.
    replace (3 - length (decimal i))%nat with 0%nat by (unfold char in *; lia).
    cbn [replicate app]. rewrite decimal_plain.
    intros (d' & Hi)%head_lit_uint.
    pose proof (to_uint_leading_zero _ _ Hi) as ->.
    rewrite decimal_plain, Hi in Hlen.
    change (length (lit _)) with 1%nat in Hlen. lia.
Qed.

Lemma hex_value_digit (n : N) : n < 16 → hex_value (hex_digit n) = Some n.
Proof.
  intros Hn.
  assert (∀ m, m < 16 → bool_decide (hex_value (hex_digit m) = Some m) = true)
    as Hall by (intros m; by_cases 16%nat).
  by apply (bool_decide_eq_true_1 _ (Hall n Hn)).
Qed.

Lemma byte_nibbles (b : N) : b < 256 → 16 * N.shiftr b 4 + N.land b 15 = b.
Proof.
  intros Hb.
  assert (∀ m, m < 256 → (16 * N.shiftr m 4 + N.land m 15 =? m) = true)
    as Hall by (intros m; by_cases 256%nat).
  by apply N.eqb_eq, Hall.
Qed.

Lemma quote_safe_unreserved (c : N) :
  quote_safe c = true → unreserved c ∨ c = 47.
Proof.
  unfold quote_safe, unreserved. intros Hs.
  repeat (apply orb_true_iff in Hs as [Hs|Hs]);
    repeat match goal with
           | H : _ && _ = true |- _ => apply andb_true_iff in H as [? ?]
           | H : (_ <=? _) = true |- _ => apply N.leb_le in H
           | H : (_ =? _) = true |- _ => apply N.eqb_eq in H
           end; lia.
Qed.

Lemma percent_decode_quote_byte (b : N) (rest : str) :
  b < 256 →
  percent_decode (quote_byte b ++ rest) =
    (octets ← percent_decode rest; Some (b :: octets)).
Proof.
  intros Hb. unfold quote_byte. destruct (quote_safe b) eqn:Hs.
  - cbn [app percent_decode].
    destruct (N.eqb_spec b 37) as [->|_]; [done|done].
  - pose proof (high4 b Hb) as Hh%N.ltb_lt.
    pose proof (low4 b Hb) as Hl%N.ltb_lt.
    cbn [app percent_decode]. change (37 =? 37) with true. cbv iota.
    rewrite (hex_value_digit _ Hh), (hex_value_digit _ Hl). cbn [mbind option_bind].
    by rewrite (byte_nibbles b Hb).
Qed.

Lemma percent_decode_quote (bs : bytes) :
  Forall (λ b, b < 256) bs →
  percent_decode (concat (map quote_byte bs)) = Some bs.
Proof.
  induction 1 as [|b bs Hb _ IH]; [done|].
  cbn [map concat]. by rewrite (percent_decode_quote_byte b _ Hb), IH.
Qed.

Lemma quote_byte_fragment (b : N) :
  b < 256 → Forall (λ c, unreserved c ∨ c = 47 ∨ c = 37) (quote_byte b).
Proof.
  intros Hb. unfold quote_byte. destruct (quote_safe b) eqn:Hs.
  - apply quote_safe_unreserved in Hs.
    constructor; [tauto|constructor].
  - pose proof (high4 b Hb) as Hh%N.ltb_lt.
    pose proof (low4 b Hb) as Hl%N.ltb_lt.
    apply hex_digit_safe, quote_safe_unreserved in Hh, Hl.
    repeat (constructor; [tauto|]). constructor.
Qed.

(** What [quote] returns is a percent-encoding of the UTF-8 octets of its
    argument. *)
Lemma quote_percent_encoded (s q : str) :
  quote s = Ok q →
  ∃ octets, encode_utf8 s = Ok octets ∧ percent_encoded octets q.
Proof.
  unfold quote. destruct (encode_utf8 s) as [bs|] eqn:Hbs; [|done].
  intros [= <-]. exists bs. split; [done|].
  apply encode_utf8_bytes in Hbs. split; [by apply percent_decode_quote|].
  induction Hbs as [|b bs Hb _ IH]; [constructor|].
  cbn [map concat]. apply Forall_app. split; [by apply quote_byte_fragment|done].
Qed.

(** C6: the descriptor stored for the result at position [i] of the
    latency-sorted sequence is the original descriptor up to its first
    [#] (the old display name is dropped), a [#], and a percent-encoding
    of the UTF-8 octets of the name [<flag> <country> #<rank> |<brand>
    <emoji>], where the rank [i + 1] is zero-padded to three digits.
    Neither part contains a [#] of its own. *)
Theorem C6_rewritten_descriptor `{Interp} (w : world) (cfg : settings)
    (final_results : list probe) (st : labelling) (i : nat) (r : probe) :
  label_all w cfg final_results = Ok st →
  final_results !! i = Some r →
  ∃ country flag brand emoji octets quoted rest,
    geo_tag w r = Ok (country, flag) ∧
    brand ∈ BRANDS_LIST cfg ∧ emoji ∈ EMOJIS_LIST cfg ∧
    zero_padded 3 (N.of_nat (S i)) (fmt_03d (S i)) ∧
    encode_utf8 (flag ++ lit " " ++ country ++ lit " #" ++ fmt_03d (S i) ++
                 lit " |" ++ brand ++ lit " " ++ emoji) = Ok octets ∧
    percent_encoded octets quoted ∧
    config r = before_first chr_hash (config r) ++ rest ∧
    (rest = [] ∨ ∃ t, rest = chr_hash :: t) ∧
    (chr_hash ∉ before_first chr_hash (config r)) ∧
    (chr_hash ∉ quoted) ∧
    labelled st !! i =
      Some {| config := before_first chr_hash (config r) ++ [chr_hash] ++ quoted;
              ping := ping r; host := host r |}.
Proof.
  intros Hl Hr.
  apply label_all_inv in Hl as (es & _ & Hes & Hlab & _).
  destruct (Hes i r Hr) as (e & He & flag & brand & emoji & quoted &
                            Hg & Hb & Hem & Hq & Hn & _).
  destruct (before_first_spec chr_hash (config r)) as (Hno & rest & Hrest & Hcase).
  destruct (quote_percent_encoded _ _ Hq) as (octets & Henc & Hpe).
  exists (e_country e), flag, brand, emoji, octets, quoted, rest.
  split_and!; try done.
  - apply fmt_03d_zero_padded.
  - by eapply quote_no_hash.
  - rewrite Hlab, list_lookup_fmap, He. simpl. by rewrite Hn.
Qed.

(** The theorem at the first result of the concrete run: its host does
    not resolve, its rank is written [001], and the fragment of the new
    descriptor decodes to the UTF-8 octets of the name. *)
Lemma C6_rewritten_descriptor_witness :
  ∃ octets,
    zero_padded 3 1 (lit "001") ∧
    encode_utf8 (globe ++ lit " Unk. #001 |V2XCore e2") = Ok octets ∧
    percent_encoded octets
      (lit "%F0%9F%8C%90%20Unk.%20%23001%20%7CV2XCore%20e2") ∧
    labelled demo_labelling !! 0%nat =
      Some {| config :=
                lit "vless://b@[::1]:8443?x=1#%F0%9F%8C%90%20Unk.%20%23001%20%7CV2XCore%20e2";
              ping := 0; host := lit "::1" |}.
Proof.
  destruct (C6_rewritten_descriptor (H := ascii_interp) demo_world demo_settings
              demo_results demo_labelling 0
              {| config := lit "vless://b@[::1]:8443?x=1#n"; ping := 0;
                 host := lit "::1" |})
    as (country & flag & brand & emoji & octets & quoted & rest &
        Hg & Hb & He & Hz & Hn & Hp & _ & _ & _ & _ & Hlab);
    [vm_compute; reflexivity..|].
  assert (labelled demo_labelling !! 0%nat =
            Some {| config :=
                      lit "vless://b@[::1]:8443?x=1" ++ [chr_hash] ++
                      lit "%F0%9F%8C%90%20Unk.%20%23001%20%7CV2XCore%20e2";
                    ping := 0; host := lit "::1" |}) as Hc
    by (vm_compute; reflexivity).
  change (before_first chr_hash (config _))
    with (lit "vless://b@[::1]:8443?x=1") in Hlab.
  rewrite Hc in Hlab. injection Hlab as <-.
  assert (Ok (lit "Unk.", globe) = Ok (country, flag)) as Hg'
    by (rewrite <- Hg; vm_compute; reflexivity).
  injection Hg' as <- <-.
  change (BRANDS_LIST demo_settings) with [lit "V2XCore"] in Hb.
  apply list_elem_of_singleton in Hb as ->.
  change (EMOJIS_LIST demo_settings) with [lit "e1"; lit "e2"] in He.
  exists octets. split_and!; [exact Hz| |exact Hp|].
  2: exact Hc.
  apply elem_of_cons in He as [->|He];
    [|apply list_elem_of_singleton in He as ->; exact Hn].
  destruct Hp as [Hd _]. exfalso.
  vm_compute in Hd. injection Hd as <-. vm_compute in Hn. discriminate Hn.
Defined.

(** The theorem at the concrete run: the two aggregate files and what
    they hold. *)
Lemma C7_transport_round_trip_witness :
  ∃ group_files encoded,
    files demo_outcome =
      group_files ++
      [(lit "subscriptions/v2ray/all_sub.txt",
        lit "vless://b@[::1]:8443?x=1#%F0%9F%8C%90%20Unk.%20%23001%20%7CV2XCore%20e2"
          ++ [chr_newline] ++
        lit "trojan://x@93.184.216.34:443#%F0%9F%87%BA%F0%9F%87%B8%20US%20%23002%20%7CV2XCore%20e2");
       (lit "subscriptions/base64/all_sub.txt", encoded)] ∧
    b64decode encoded =
      Ok (lit "vless://b@[::1]:8443?x=1#%F0%9F%8C%90%20Unk.%20%23001%20%7CV2XCore%20e2"
            ++ [chr_newline] ++
          lit "trojan://x@93.184.216.34:443#%F0%9F%87%BA%F0%9F%87%B8%20US%20%23002%20%7CV2XCore%20e2").
Proof.
  destruct (C7_transport_round_trip (H := ascii_interp) demo_world demo_settings
              demo_outcome)
    as (group_files & st & plain & encoded & Hl & Hf & Hp & Hd).
  - vm_compute; reflexivity.
  - vm_compute. discriminate.
  - vm_compute in Hl. injection Hl as <-.
    vm_compute in Hp. injection Hp as <-.
    replace (v2ray_path demo_settings)
      with (lit "subscriptions/v2ray/all_sub.txt") in Hf
      by (vm_compute; reflexivity).
    replace (base64_path demo_settings)
      with (lit "subscriptions/base64/all_sub.txt") in Hf
      by (vm_compute; reflexivity).
    exists group_files, encoded. split; [exact Hf|exact Hd].
Defined.
